(** * The route index of traveltreap.py: treap, trie and LocationGraph

    A shallow embedding of the classes [TreapNode], [Treap], [TrieNode],
    [Trie] and [LocationGraph] of [src/traveltreap.py], of the part of
    [App.submitLocations] that feeds them, and of the way
    [WeatherApp.getWeather] of [src/weather_treap.py] takes a key apart.

    Conventions of the embedding.
    - A Python [str] is a [string]; its characters are the code points
      U+0000 to U+00FF, one [ascii] each.  On that range [str.lower] acts
      character by character, [<] on strings is the lexicographic order of
      the code points ([String.ltb]) and [str.startswith] is [String.prefix].
    - Python's [None] in a child link is the constructor [Null].
    - [random.randint(1, 100)] is not modelled as a source of randomness:
      the value it returns is an explicit argument [draw] of every function
      that constructs a [TreapNode].
    - An attribute read on [None] and an index out of range raise; the
      functions that can reach one return a [result].
    - The methods mutate their object in place; here they return the new
      value of the object. *)

From Stdlib Require Import List String Ascii Bool ZArith NArith Lia.
From Stdlib Require Import Sorted Permutation.
Import ListNotations.

Local Open Scope string_scope.
Local Open Scope list_scope.

(** ** Exceptions *)

Inductive exn : Type :=
  | AttributeError
  | IndexError.

Inductive result (A : Type) : Type :=
  | Ok (a : A)
  | Raise (e : exn).

Arguments Ok {A} a.
Arguments Raise {A} e.

Definition bind {A B : Type} (m : result A) (k : A -> result B) : result B :=
  match m with
  | Ok a => k a
  | Raise e => Raise e
  end.

Notation "x <- m ;; k" := (bind m (fun x => k))
  (at level 61, m at next level, right associativity).

(** ** Strings *)

(** [str.lower] on one code point below U+0100: the letters A-Z and the
    Latin-1 capitals U+00C0-U+00DE (without the sign U+00D7) move up by 32. *)
Definition lower_char (c : ascii) : ascii :=
  let n := N_of_ascii c in
  if ((65 <=? n) && (n <=? 90) ||
      (192 <=? n) && (n <=? 222) && negb (n =? 215))%N
  then ascii_of_N (n + 32)
  else c.

Fixpoint lower (s : string) : string :=
  match s with
  | EmptyString => EmptyString
  | String c s' => String (lower_char c) (lower s')
  end.

(** [s.startswith(prefix)] *)
Definition startswith (s prefix : string) : bool := String.prefix prefix s.

(** [str.isspace] on one code point below U+0100. *)
Definition isspace (c : ascii) : bool :=
  let n := N_of_ascii c in
  ((9 <=? n) && (n <=? 13) || (28 <=? n) && (n <=? 32) ||
   (n =? 133) || (n =? 160))%N.

Fixpoint lstrip (s : string) : string :=
  match s with
  | EmptyString => EmptyString
  | String c s' => if isspace c then lstrip s' else s
  end.

Fixpoint rstrip (s : string) : string :=
  match s with
  | EmptyString => EmptyString
  | String c s' =>
      match rstrip s' with
      | EmptyString => if isspace c then EmptyString else String c EmptyString
      | r => String c r
      end
  end.

(** [s.strip()] *)
Definition strip (s : string) : string := rstrip (lstrip s).

(** ** class TreapNode *)

Inductive TreapNode : Type :=
  | Null
  | mkTreapNode (location : string) (priority : Z) (left right : TreapNode).

(** [TreapNode(location)], where [random.randint(1, 100)] returned [draw]. *)
Definition newTreapNode (location : string) (draw : Z) : TreapNode :=
  mkTreapNode location draw Null Null.

(** [node.priority] *)
Definition get_priority (node : TreapNode) : result Z :=
  match node with
  | Null => Raise AttributeError
  | mkTreapNode _ p _ _ => Ok p
  end.

(** ** class Treap *)

Module Treap.

Record t : Type := mk { root : TreapNode }.

(** [Treap()] *)
Definition new : t := {| root := Null |}.

Definition rotateRight (root : TreapNode) : result TreapNode :=
  match root with
  | Null => Raise AttributeError
  | mkTreapNode loc pr leftChild r =>
      match leftChild with
      | Null => Raise AttributeError
      | mkTreapNode lloc lpr ll lr =>
          Ok (mkTreapNode lloc lpr ll (mkTreapNode loc pr lr r))
      end
  end.

Definition rotateLeft (root : TreapNode) : result TreapNode :=
  match root with
  | Null => Raise AttributeError
  | mkTreapNode loc pr l rightChild =>
      match rightChild with
      | Null => Raise AttributeError
      | mkTreapNode rloc rpr rl rr =>
          Ok (mkTreapNode rloc rpr (mkTreapNode loc pr l rl) rr)
      end
  end.

Fixpoint insert (root : TreapNode) (location : string) (draw : Z)
  : result TreapNode :=
  match root with
  | Null => Ok (newTreapNode location draw)
  | mkTreapNode loc pr l r =>
      if String.ltb location loc then
        l' <- insert l location draw ;;
        let root := mkTreapNode loc pr l' r in
        lp <- get_priority l' ;;
        if (lp >? pr)%Z then rotateRight root else Ok root
      else
        r' <- insert r location draw ;;
        let root := mkTreapNode loc pr l r' in
        rp <- get_priority r' ;;
        if (rp >? pr)%Z then rotateLeft root else Ok root
  end.

Definition insertNode (location : string) (draw : Z) (self : t) : result t :=
  r <- insert (root self) location draw ;;
  Ok {| root := r |}.

Fixpoint search (root : TreapNode) (prefix : string) : list string :=
  match root with
  | Null => []
  | mkTreapNode loc _ l r =>
      (if startswith loc prefix then [loc] else []) ++
      (if String.ltb prefix loc then search l prefix else search r prefix)
  end.

Definition searchPrefix (prefix : string) (self : t) : list string :=
  search (root self) prefix.

End Treap.

(** ** class TrieNode *)

(** [children] is a [dict]: its keys are unique and it iterates in the
    order in which the keys were first set, so it is an association list
    in that order. *)
#[local] Unset Elimination Schemes.
Inductive TrieNode : Type :=
  | mkTrieNode (children : list (ascii * TrieNode)) (is_end_of_word : bool).
#[local] Set Elimination Schemes.

(** [TrieNode()] *)
Definition newTrieNode : TrieNode := mkTrieNode [] false.

Definition children (node : TrieNode) : list (ascii * TrieNode) :=
  match node with mkTrieNode ch _ => ch end.

Definition is_end_of_word (node : TrieNode) : bool :=
  match node with mkTrieNode _ e => e end.

(** [d[char]], after [char in d] was tested: [None] when the key is absent. *)
Fixpoint dict_get (char : ascii) (d : list (ascii * TrieNode))
  : option TrieNode :=
  match d with
  | [] => None
  | (k, v) :: d' => if Ascii.eqb k char then Some v else dict_get char d'
  end.

(** What one round of the loop of [Trie.insert] does to [current.children]
    when the rest of the loop does [f] to the child it moves to: a key that
    is present keeps its place and its child is updated; a key that is
    absent is first set to a fresh [TrieNode()], at the end of the
    iteration order. *)
Fixpoint dict_update (char : ascii) (f : TrieNode -> TrieNode)
  (d : list (ascii * TrieNode)) : list (ascii * TrieNode) :=
  match d with
  | [] => [(char, f newTrieNode)]
  | (k, v) :: d' =>
      if Ascii.eqb k char then (k, f v) :: d'
      else (k, v) :: dict_update char f d'
  end.

(** ** class Trie *)

Module Trie.

Record t : Type := mk { root : TrieNode }.

(** [Trie()] *)
Definition new : t := {| root := newTrieNode |}.

(** The loop of [insert] from the node [current] on, over the characters
    of [word] that are left, and the assignment that follows it. *)
Fixpoint insert_loop (word : string) (current : TrieNode) : TrieNode :=
  match word with
  | EmptyString => mkTrieNode (children current) true
  | String char word' =>
      mkTrieNode (dict_update char (insert_loop word') (children current))
                 (is_end_of_word current)
  end.

Definition insert (word : string) (self : t) : t :=
  let word := lower word in
  {| root := insert_loop word (root self) |}.

Fixpoint findWords (node : TrieNode) (prefix : string) : list string :=
  match node with
  | mkTrieNode ch e =>
      (if e then [prefix] else []) ++
      flat_map (fun kv => findWords (snd kv) (prefix ++ String (fst kv) ""))
               ch
  end.

(** The loop of [search]: [None] when it leaves by [return []]. *)
Fixpoint search_loop (prefix : string) (current : TrieNode)
  : option TrieNode :=
  match prefix with
  | EmptyString => Some current
  | String char prefix' =>
      match dict_get char (children current) with
      | None => None
      | Some child => search_loop prefix' child
      end
  end.

Definition search (prefix : string) (self : t) : list string :=
  let prefix := lower prefix in
  match search_loop prefix (root self) with
  | None => []
  | Some current => findWords current prefix
  end.

End Trie.

(** ** class LocationGraph *)

(** What a call evaluates to: a method without [return] gives [None]. *)
Inductive value : Type :=
  | PyNone
  | PyStr (s : string).

Module LocationGraph.

Record t : Type := mk {
  locations : list string;
  treap : Treap.t;
  trie : Trie.t
}.

(** [LocationGraph()] *)
Definition new : t :=
  {| locations := []; treap := Treap.new; trie := Trie.new |}.

(** [newLocations[i]] *)
Definition index (newLocations : list string) (i : nat) : result string :=
  match nth_error newLocations i with
  | Some s => Ok s
  | None => Raise IndexError
  end.

(** The f-string of [addLocations]. *)
Definition combined (departure arrival : string) : string :=
  departure ++ " -> " ++ arrival.

Definition addLocations (newLocations : list string) (draw : Z) (self : t)
  : result (value * t) :=
  l0 <- index newLocations 0 ;;
  l1 <- index newLocations 1 ;;
  let combinedLocation := combined l0 l1 in
  treap' <- Treap.insertNode combinedLocation draw (treap self) ;;
  let trie' := Trie.insert combinedLocation (trie self) in
  let locations' := locations self ++ [combinedLocation] in
  Ok (PyNone, {| locations := locations'; treap := treap'; trie := trie' |}).

Definition searchLocations (prefix : string) (self : t) : list string :=
  Treap.searchPrefix prefix (treap self).

Definition autocomplete (prefix : string) (self : t) : list string :=
  Trie.search prefix (trie self).

End LocationGraph.

(** ** The part of App.submitLocations that reaches the index *)

(** [arrival_text] and [destination_text] are what the two entry fields
    hold; the widgets and the JSON file are left out. *)
Definition submitLocations (arrival_text destination_text : string)
  (draw : Z) (graph : LocationGraph.t) : result LocationGraph.t :=
  let arrivalLocation := strip arrival_text in
  let destinationLocation := strip destination_text in
  if negb (String.eqb arrivalLocation "") &&
     negb (String.eqb destinationLocation "")
  then
    r <- LocationGraph.addLocations
           [arrivalLocation; destinationLocation] draw graph ;;
    Ok (snd r)
  else Ok graph.

(** ** Sequences of calls *)

(** [insertNode] called for each key of [ins] in turn, each with the value
    its [random.randint] returned. *)
Fixpoint insertNodes (ins : list (string * Z)) (self : Treap.t)
  : result Treap.t :=
  match ins with
  | [] => Ok self
  | (location, draw) :: ins' =>
      self' <- Treap.insertNode location draw self ;;
      insertNodes ins' self'
  end.

(** [Trie.insert] called for each word of [words] in turn. *)
Fixpoint insertWords (words : list string) (self : Trie.t) : Trie.t :=
  match words with
  | [] => self
  | word :: words' => insertWords words' (Trie.insert word self)
  end.

(** [addLocations] called for each route of [routes] in turn. *)
Fixpoint addRoutes (routes : list (string * string * Z))
  (self : LocationGraph.t) : result LocationGraph.t :=
  match routes with
  | [] => Ok self
  | (departure, arrival, draw) :: routes' =>
      r <- LocationGraph.addLocations [departure; arrival] draw self ;;
      addRoutes routes' (snd r)
  end.

(** ** Properties of a treap *)

(** [a <= b] on Python strings. *)
Definition str_le (a b : string) : Prop := String.leb a b = true.

(** The keys of a tree, left subtree first, then the node, then the right
    subtree. *)
Fixpoint inorder (t : TreapNode) : list string :=
  match t with
  | Null => []
  | mkTreapNode loc _ l r => inorder l ++ loc :: inorder r
  end.

(** Every key of the left subtree is at most the node's key and every key
    of the right subtree is at least the node's key, at every node. *)
Fixpoint bst (t : TreapNode) : Prop :=
  match t with
  | Null => True
  | mkTreapNode loc _ l r =>
      Forall (fun x => str_le x loc) (inorder l) /\
      Forall (fun x => str_le loc x) (inorder r) /\
      bst l /\ bst r
  end.

(** The priority of the root of [child], if there is one, is at most [p]. *)
Definition child_le (child : TreapNode) (p : Z) : Prop :=
  match child with
  | Null => True
  | mkTreapNode _ cp _ _ => (cp <= p)%Z
  end.

(** Max-heap order: at every node the priority is at least the priority of
    each child. *)
Fixpoint heap (t : TreapNode) : Prop :=
  match t with
  | Null => True
  | mkTreapNode _ p l r => child_le l p /\ child_le r p /\ heap l /\ heap r
  end.

(** Every priority in [t] is at most [b]. *)
Fixpoint prio_le (b : Z) (t : TreapNode) : Prop :=
  match t with
  | Null => True
  | mkTreapNode _ p l r => (p <= b)%Z /\ prio_le b l /\ prio_le b r
  end.

(** The keys of the nodes that a search for [prefix] visits: from the root
    down one path, to the left when [prefix] is less than the key and to
    the right otherwise. *)
Fixpoint visited (t : TreapNode) (prefix : string) : list string :=
  match t with
  | Null => []
  | mkTreapNode loc _ l r =>
      loc :: (if String.ltb prefix loc then visited l prefix
              else visited r prefix)
  end.

(** The shape of the tree that [insert] returns at a node: the child that
    the key went to was inserted into, and either that child was rotated
    above the node or the node kept its place. *)
Inductive insert_step (loc : string) (pr : Z) (l r : TreapNode)
  (location : string) (draw : Z) (t' : TreapNode) : Prop :=
  | step_left_rotated cloc cp cl cr :
      String.ltb location loc = true ->
      Treap.insert l location draw = Ok (mkTreapNode cloc cp cl cr) ->
      (cp > pr)%Z ->
      t' = mkTreapNode cloc cp cl (mkTreapNode loc pr cr r) ->
      insert_step loc pr l r location draw t'
  | step_left_kept cloc cp cl cr :
      String.ltb location loc = true ->
      Treap.insert l location draw = Ok (mkTreapNode cloc cp cl cr) ->
      (cp <= pr)%Z ->
      t' = mkTreapNode loc pr (mkTreapNode cloc cp cl cr) r ->
      insert_step loc pr l r location draw t'
  | step_right_rotated cloc cp cl cr :
      String.ltb location loc = false ->
      Treap.insert r location draw = Ok (mkTreapNode cloc cp cl cr) ->
      (cp > pr)%Z ->
      t' = mkTreapNode cloc cp (mkTreapNode loc pr l cl) cr ->
      insert_step loc pr l r location draw t'
  | step_right_kept cloc cp cl cr :
      String.ltb location loc = false ->
      Treap.insert r location draw = Ok (mkTreapNode cloc cp cl cr) ->
      (cp <= pr)%Z ->
      t' = mkTreapNode loc pr l (mkTreapNode cloc cp cl cr) ->
      insert_step loc pr l r location draw t'.

(** ** Properties of a trie *)

(** The keys of every [children] dict are unique. *)
Inductive unique_keys : TrieNode -> Prop :=
  | unique_keys_node ch e :
      NoDup (map fst ch) ->
      (forall kv, In kv ch -> unique_keys (snd kv)) ->
      unique_keys (mkTrieNode ch e).

(** The path that [s] spells from [node] exists and ends in a node that is
    marked as the end of a word. *)
Definition spells (node : TrieNode) (s : string) : bool :=
  match Trie.search_loop s node with
  | Some last => is_end_of_word last
  | None => false
  end.

(** Induction on a trie node, with the property for every child. *)
Definition TrieNode_ind (P : TrieNode -> Prop)
  (H : forall ch e, (forall kv, In kv ch -> P (snd kv)) -> P (mkTrieNode ch e))
  : forall node, P node :=
  fix F (node : TrieNode) : P node :=
    match node with
    | mkTrieNode ch e =>
        H ch e
          ((fix G (l : list (ascii * TrieNode))
              : forall kv, In kv l -> P (snd kv) :=
              match l with
              | [] => fun kv (Hin : In kv []) => match Hin with end
              | (c, child) :: l' => fun kv (Hin : In kv ((c, child) :: l')) =>
                  match Hin with
                  | or_introl Heq =>
                      eq_ind (c, child) (fun y => P (snd y)) (F child) kv Heq
                  | or_intror Hin' => G l' kv Hin'
                  end
              end) ch)
    end.

(** The child that the loop of [insert] moves to for [char]. *)
Definition child_or_new (char : ascii) (d : list (ascii * TrieNode)) : TrieNode :=
  match dict_get char d with
  | Some v => v
  | None => newTrieNode
  end.

(** ** Routes *)

(** The key that [addLocations] builds for a route. *)
Definition route_key (route : string * string * Z) : string :=
  LocationGraph.combined (fst (fst route)) (snd (fst route)).

(** The key of a route with the draw of its treap node. *)
Definition route_ins (route : string * string * Z) : string * Z :=
  (route_key route, snd route).

(** ** Further properties of a treap *)

(** The key and the priority of every node, in the order of [inorder]. *)
Fixpoint nodes (t : TreapNode) : list (string * Z) :=
  match t with
  | Null => []
  | mkTreapNode loc p l r => nodes l ++ (loc, p) :: nodes r
  end.

(** [n] put into [xs] in front of the first entry whose key is greater
    than the key of [n], at the end when there is none. *)
Fixpoint insort (n : string * Z) (xs : list (string * Z))
  : list (string * Z) :=
  match xs with
  | [] => [n]
  | x :: xs' =>
      if String.ltb (fst n) (fst x) then n :: x :: xs'
      else x :: insort n xs'
  end.

(** The entries of [ins] sorted by key, entries with equal keys in the
    order of [ins]. *)
Definition sort_by_key (ins : list (string * Z)) : list (string * Z) :=
  fold_left (fun acc n => insort n acc) ins [].


(** ** Sequences of submissions *)




(** ** WeatherApp.getWeather (weather_treap.py) *)

(** The separator of [selectedLocation.split(" -> ")]. *)
Definition arrow : string := " -> ".

(** The scan of [str.split] for the non-empty separator [sep]: [cur] is
    the piece read so far, [skip] the number of characters of an
    occurrence of [sep] that are still to be passed. *)
Fixpoint split_loop (sep s : string) (skip : nat) (cur : string)
  : list string :=
  match s with
  | EmptyString => [cur]
  | String c s' =>
      match skip with
      | S skip' => split_loop sep s' skip' cur
      | O =>
          if String.prefix sep s
          then cur :: split_loop sep s' (String.length sep - 1) ""
          else split_loop sep s' 0 (cur ++ String c "")
      end
  end.

(** [s.split(" -> ")] *)
Definition split_arrow (s : string) : list string := split_loop arrow s 0 "".

(** [getWeather] for the text [selectedLocation] of the combo box: the
    arguments of its calls of [fetchAndDisplayWeather], in order.  That
    method catches every exception of its body. *)
Definition getWeather (selectedLocation : string) : result (list string) :=
  if negb (String.eqb selectedLocation "") then
    let locations := split_arrow selectedLocation in
    departureLocation <- LocationGraph.index locations 0 ;;
    arrivalLocation <-
      (if (1 <? List.length locations)%nat
       then l1 <- LocationGraph.index locations 1 ;; Ok (Some l1)
       else Ok None) ;;
    Ok (departureLocation ::
        match arrivalLocation with
        | Some a => if negb (String.eqb a "") then [a] else []
        | None => []
        end)
  else Ok [].

(** [c in s] for a character [c]. *)
Fixpoint contains_char (c : ascii) (s : string) : bool :=
  match s with
  | EmptyString => false
  | String x s' => Ascii.eqb x c || contains_char c s'
  end.

(** * Proofs *)

(** ** The result monad *)

Lemma bind_Ok_inv {A B : Type} (m : result A) (k : A -> result B) (b : B) :
  bind m k = Ok b -> exists a, m = Ok a /\ k a = Ok b.
Proof.
  destruct m as [a|e]; simpl; intros H; [eauto | discriminate].
Qed.

(** ** The order of strings *)

Lemma ascii_compare_refl (a : ascii) : Ascii.compare a a = Eq.
Proof. unfold Ascii.compare. apply N.compare_refl. Qed.

Lemma ascii_compare_lt_trans (a b c : ascii) :
  Ascii.compare a b = Lt -> Ascii.compare b c = Lt -> Ascii.compare a c = Lt.
Proof.
  unfold Ascii.compare. rewrite !N.compare_lt_iff. lia.
Qed.

Lemma string_compare_refl (s : string) : String.compare s s = Eq.
Proof.
  induction s as [|a s IH]; simpl; [reflexivity|].
  now rewrite ascii_compare_refl.
Qed.

Lemma string_compare_lt_trans (s1 s2 s3 : string) :
  String.compare s1 s2 = Lt -> String.compare s2 s3 = Lt ->
  String.compare s1 s3 = Lt.
Proof.
  revert s2 s3.
  induction s1 as [|a s1 IH]; intros [|b s2] [|c s3]; simpl;
    try discriminate; try reflexivity.
  destruct (Ascii.compare a b) eqn:Hab; try discriminate;
    destruct (Ascii.compare b c) eqn:Hbc; try discriminate; intros H12 H23.
  - apply Ascii.compare_eq_iff in Hab, Hbc. subst.
    rewrite ascii_compare_refl. eauto.
  - apply Ascii.compare_eq_iff in Hab. subst. now rewrite Hbc.
  - apply Ascii.compare_eq_iff in Hbc. subst. now rewrite Hab.
  - now rewrite (ascii_compare_lt_trans a b c).
Qed.

Lemma str_le_cases (a b : string) :
  str_le a b <-> a = b \/ String.compare a b = Lt.
Proof.
  unfold str_le, String.leb. split.
  - destruct (String.compare a b) eqn:H; try discriminate; intros _.
    + left. now apply String.compare_eq_iff.
    + now right.
  - intros [->|H].
    + now rewrite string_compare_refl.
    + now rewrite H.
Qed.

Lemma str_le_refl (a : string) : str_le a a.
Proof. apply str_le_cases. now left. Qed.

Lemma str_le_trans (a b c : string) : str_le a b -> str_le b c -> str_le a c.
Proof.
  rewrite !str_le_cases. intros [->|Hab] [->|Hbc]; auto.
  right. eapply string_compare_lt_trans; eauto.
Qed.

Lemma ltb_true_le (a b : string) : String.ltb a b = true -> str_le a b.
Proof.
  unfold String.ltb. intros H. apply str_le_cases. right.
  destruct (String.compare a b); congruence.
Qed.

Lemma ltb_false_le (a b : string) : String.ltb a b = false -> str_le b a.
Proof.
  unfold String.ltb, str_le, String.leb. rewrite (String.compare_antisym b a).
  destruct (String.compare a b); simpl; congruence.
Qed.

Lemma ltb_irrefl (a : string) : String.ltb a a = false.
Proof. unfold String.ltb. now rewrite string_compare_refl. Qed.

(** ** Treap.insert *)

Lemma insert_returns_node (t : TreapNode) (location : string) (draw : Z) :
  exists loc p l r, Treap.insert t location draw = Ok (mkTreapNode loc p l r).
Proof.
  induction t as [|loc pr l IHl r IHr]; simpl.
  - unfold newTreapNode. eauto.
  - destruct (String.ltb location loc).
    + destruct IHl as (cloc & cp & cl & cr & ->). simpl.
      destruct (cp >? pr)%Z; simpl; eauto.
    + destruct IHr as (cloc & cp & cl & cr & ->). simpl.
      destruct (cp >? pr)%Z; simpl; eauto.
Qed.

Lemma insert_node_inv loc pr l r location draw t' :
  Treap.insert (mkTreapNode loc pr l r) location draw = Ok t' ->
  insert_step loc pr l r location draw t'.
Proof.
  simpl. destruct (String.ltb location loc) eqn:Hlt.
  - destruct (insert_returns_node l location draw)
      as (cloc & cp & cl & cr & Hl).
    rewrite Hl. simpl. destruct (cp >? pr)%Z eqn:Hp; simpl; intros [= <-].
    + eapply step_left_rotated; eauto. lia.
    + eapply step_left_kept; eauto. lia.
  - destruct (insert_returns_node r location draw)
      as (cloc & cp & cl & cr & Hr).
    rewrite Hr. simpl. destruct (cp >? pr)%Z eqn:Hp; simpl; intros [= <-].
    + eapply step_right_rotated; eauto. lia.
    + eapply step_right_kept; eauto. lia.
Qed.

Lemma insert_right_perm (a loc : string) (xs ys zs : list string) :
  Permutation ys (a :: zs) ->
  Permutation (xs ++ loc :: ys) (a :: xs ++ loc :: zs).
Proof.
  intros H. transitivity (xs ++ a :: loc :: zs).
  - apply Permutation_app_head.
    transitivity (loc :: a :: zs); [now constructor | apply perm_swap].
  - symmetry. apply Permutation_middle.
Qed.

Lemma insert_inorder (t : TreapNode) (location : string) (draw : Z) t' :
  Treap.insert t location draw = Ok t' ->
  Permutation (inorder t') (location :: inorder t).
Proof.
  revert t'. induction t as [|loc pr l IHl r IHr]; intros t' H.
  - simpl in H. injection H as <-. simpl. apply Permutation_refl.
  - apply insert_node_inv in H.
    destruct H as [cloc cp cl cr _ Hc _ ->|cloc cp cl cr _ Hc _ ->
                  |cloc cp cl cr _ Hc _ ->|cloc cp cl cr _ Hc _ ->].
    + apply IHl in Hc. simpl in *.
      replace (inorder cl ++ cloc :: inorder cr ++ loc :: inorder r)
        with ((inorder cl ++ cloc :: inorder cr) ++ loc :: inorder r)
        by (now rewrite <- app_assoc).
      exact (Permutation_app_tail (loc :: inorder r) Hc).
    + apply IHl in Hc. simpl in *.
      exact (Permutation_app_tail (loc :: inorder r) Hc).
    + apply IHr in Hc. simpl in *.
      rewrite <- app_assoc. simpl.
      apply insert_right_perm, Hc.
    + apply IHr in Hc. simpl in *.
      apply insert_right_perm, Hc.
Qed.

Lemma insert_Forall (P : string -> Prop) t location draw t' :
  Treap.insert t location draw = Ok t' ->
  P location -> Forall P (inorder t) -> Forall P (inorder t').
Proof.
  intros H Hk Ht. apply insert_inorder in H.
  eapply Permutation_Forall; [symmetry; exact H|]. now constructor.
Qed.

Lemma insert_bst t location draw t' :
  Treap.insert t location draw = Ok t' -> bst t -> bst t'.
Proof.
  revert t'. induction t as [|loc pr l IHl r IHr]; intros t' H Hb.
  - simpl in H. injection H as <-. simpl. auto.
  - destruct Hb as (Hl & Hr & Hbl & Hbr).
    apply insert_node_inv in H.
    destruct H as [cloc cp cl cr Hlt Hc _ ->|cloc cp cl cr Hlt Hc _ ->
                  |cloc cp cl cr Hlt Hc _ ->|cloc cp cl cr Hlt Hc _ ->].
    + pose proof (IHl _ Hc Hbl) as (Hcl & Hcr & Hbcl & Hbcr).
      pose proof (insert_Forall _ _ _ _ _ Hc (ltb_true_le _ _ Hlt) Hl) as Hall.
      simpl in Hall. apply Forall_app in Hall as (_ & Hall).
      apply Forall_cons_iff in Hall as (Hcloc & Hcrloc).
      simpl. repeat split; auto.
      apply Forall_app. split; [exact Hcr|].
      constructor; [exact Hcloc|].
      eapply Forall_impl; [|exact Hr]. intros x Hx.
      now apply str_le_trans with loc.
    + pose proof (IHl _ Hc Hbl) as Hbc.
      pose proof (insert_Forall _ _ _ _ _ Hc (ltb_true_le _ _ Hlt) Hl) as Hall.
      exact (conj Hall (conj Hr (conj Hbc Hbr))).
    + pose proof (IHr _ Hc Hbr) as (Hcl & Hcr & Hbcl & Hbcr).
      pose proof (insert_Forall _ _ _ _ _ Hc (ltb_false_le _ _ Hlt) Hr) as Hall.
      simpl in Hall. apply Forall_app in Hall as (Hloccl & Hall).
      apply Forall_cons_iff in Hall as (Hcloc & _).
      simpl. repeat split; auto.
      apply Forall_app. split.
      * eapply Forall_impl; [|exact Hl]. intros x Hx.
        now apply str_le_trans with loc.
      * constructor; [exact Hcloc|exact Hcl].
    + pose proof (IHr _ Hc Hbr) as Hbc.
      pose proof (insert_Forall _ _ _ _ _ Hc (ltb_false_le _ _ Hlt) Hr) as Hall.
      exact (conj Hl (conj Hall (conj Hbl Hbc))).
Qed.

(** ** Sorted in-order traversals *)

Lemma StronglySorted_app_iff (R : string -> string -> Prop) (xs ys : list string) :
  StronglySorted R (xs ++ ys) <->
  StronglySorted R xs /\ StronglySorted R ys /\
  Forall (fun x => Forall (R x) ys) xs.
Proof.
  induction xs as [|x xs IH]; simpl.
  - split; [intros H; repeat split; auto; constructor | tauto].
  - split.
    + intros H. apply StronglySorted_inv in H as (Hs & Hx).
      apply IH in Hs as (Hxs & Hys & Hall).
      apply Forall_app in Hx as (Hx1 & Hx2).
      repeat split; auto; constructor; auto.
    + intros (Hxs & Hys & Hall).
      apply StronglySorted_inv in Hxs as (Hxs & Hx).
      apply Forall_cons_iff in Hall as (Hxy & Hall).
      constructor.
      * apply IH. auto.
      * apply Forall_app. auto.
Qed.

Lemma bst_iff_sorted (t : TreapNode) :
  bst t <-> StronglySorted str_le (inorder t).
Proof.
  induction t as [|loc pr l IHl r IHr]; simpl.
  - split; [constructor | trivial].
  - rewrite StronglySorted_app_iff. split.
    + intros (Hl & Hr & Hbl & Hbr). repeat split.
      * now apply IHl.
      * constructor; [now apply IHr | exact Hr].
      * eapply Forall_impl; [|exact Hl]. intros x Hx.
        constructor; [exact Hx|].
        eapply Forall_impl; [|exact Hr]. intros y Hy.
        now apply str_le_trans with loc.
    + intros (Hsl & Hsr & Hall).
      apply StronglySorted_inv in Hsr as (Hsr & Hr).
      repeat split.
      * eapply Forall_impl; [|exact Hall]. intros x Hx.
        now apply Forall_cons_iff in Hx as (Hx & _).
      * exact Hr.
      * now apply IHl.
      * now apply IHr.
Qed.

Lemma bst_iff_Sorted (t : TreapNode) : bst t <-> Sorted str_le (inorder t).
Proof.
  rewrite bst_iff_sorted. split.
  - apply StronglySorted_Sorted.
  - apply Sorted_StronglySorted. exact str_le_trans.
Qed.

(** ** Heap order *)

Lemma prio_le_weaken (b c : Z) (t : TreapNode) :
  (b <= c)%Z -> prio_le b t -> prio_le c t.
Proof.
  intros Hbc. induction t as [|loc p l IHl r IHr]; simpl; [trivial|].
  intros (Hp & Hl & Hr). repeat split; auto. lia.
Qed.

Lemma heap_prio_le (t : TreapNode) (b : Z) :
  heap t -> child_le t b -> prio_le b t.
Proof.
  revert b. induction t as [|loc p l IHl r IHr]; simpl; [trivial|].
  intros b (Hl & Hr & Hhl & Hhr) Hp. repeat split; auto.
  - apply prio_le_weaken with p; auto.
  - apply prio_le_weaken with p; auto.
Qed.

Lemma prio_le_child (t : TreapNode) (b : Z) : prio_le b t -> child_le t b.
Proof. destruct t; simpl; tauto. Qed.

(** Inserting into a heap whose priorities are all at most [b] gives a heap;
    only its root can be above [b]: both its subtrees stay at most [b]. *)
Lemma insert_heap_bounded t location draw t' (b : Z) :
  Treap.insert t location draw = Ok t' ->
  heap t -> prio_le b t ->
  heap t' /\
  match t' with
  | Null => True
  | mkTreapNode _ _ l' r' => prio_le b l' /\ prio_le b r'
  end.
Proof.
  revert t' b. induction t as [|loc pr l IHl r IHr]; intros t' b H Hh Hb.
  - simpl in H. injection H as <-. simpl. tauto.
  - destruct Hh as (Hl & Hr & Hhl & Hhr). destruct Hb as (Hpr & Hbl & Hbr).
    pose proof (heap_prio_le _ _ Hhl Hl) as Hpl.
    pose proof (heap_prio_le _ _ Hhr Hr) as Hprr.
    apply insert_node_inv in H.
    destruct H as [cloc cp cl cr _ Hc Hp ->|cloc cp cl cr _ Hc Hp ->
                  |cloc cp cl cr _ Hc Hp ->|cloc cp cl cr _ Hc Hp ->].
    + destruct (IHl _ pr Hc Hhl Hpl) as ((_ & _ & Hhcl & Hhcr) & Hcl & Hcr).
      simpl. repeat split; auto using prio_le_child.
      * apply prio_le_child. apply prio_le_weaken with pr; auto. lia.
      * lia.
      * apply prio_le_weaken with pr; auto.
      * apply prio_le_weaken with pr; auto.
    + destruct (IHl _ pr Hc Hhl Hpl) as (Hhc & Hcl & Hcr).
      simpl. repeat split; auto.
      * simpl in Hhc. tauto.
      * simpl in Hhc. tauto.
      * simpl in Hhc. tauto.
      * simpl in Hhc. tauto.
      * lia.
      * apply prio_le_weaken with pr; auto.
      * apply prio_le_weaken with pr; auto.
    + destruct (IHr _ pr Hc Hhr Hprr) as ((_ & _ & Hhcl & Hhcr) & Hcl & Hcr).
      simpl. repeat split; auto using prio_le_child.
      * lia.
      * apply prio_le_child. apply prio_le_weaken with pr; auto. lia.
      * apply prio_le_weaken with pr; auto.
      * apply prio_le_weaken with pr; auto.
    + destruct (IHr _ pr Hc Hhr Hprr) as (Hhc & Hcl & Hcr).
      simpl. repeat split; auto.
      * simpl in Hhc. tauto.
      * simpl in Hhc. tauto.
      * simpl in Hhc. tauto.
      * simpl in Hhc. tauto.
      * lia.
      * apply prio_le_weaken with pr; auto.
      * apply prio_le_weaken with pr; auto.
Qed.

(** ** Prefixes *)

Lemma prefix_app (p s : string) : String.prefix p (p ++ s)%string = true.
Proof.
  induction p as [|a p IH]; simpl.
  - now destruct s.
  - destruct (ascii_dec a a); [exact IH | congruence].
Qed.

Lemma prefix_inv (p s : string) :
  String.prefix p s = true -> exists rest, s = (p ++ rest)%string.
Proof.
  revert s. induction p as [|a p IH]; intros s H.
  - exists s. reflexivity.
  - destruct s as [|b s]; simpl in H; [discriminate|].
    destruct (ascii_dec a b) as [->|]; [|discriminate].
    destruct (IH s H) as (rest & ->). now exists rest.
Qed.

Lemma startswith_iff (s p : string) :
  startswith s p = true <-> exists rest, s = (p ++ rest)%string.
Proof.
  unfold startswith. split.
  - apply prefix_inv.
  - intros (rest & ->). apply prefix_app.
Qed.

(** ** Treap.search *)

Lemma search_visited (t : TreapNode) (prefix : string) :
  Treap.search t prefix =
  filter (fun key => startswith key prefix) (visited t prefix).
Proof.
  induction t as [|loc p l IHl r IHr]; simpl; [reflexivity|].
  rewrite IHl, IHr.
  destruct (startswith loc prefix), (String.ltb prefix loc); reflexivity.
Qed.

Lemma visited_incl (t : TreapNode) (prefix : string) :
  incl (visited t prefix) (inorder t).
Proof.
  induction t as [|loc p l IHl r IHr]; simpl; intros x Hx; [contradiction|].
  apply in_app_iff. simpl. destruct Hx as [->|Hx]; [auto|].
  destruct (String.ltb prefix loc); [left|right; right]; auto.
Qed.

Lemma treap_search_In (t : TreapNode) (prefix x : string) :
  In x (Treap.search t prefix) ->
  In x (inorder t) /\ startswith x prefix = true.
Proof.
  rewrite search_visited, filter_In. intros (Hv & Hs).
  split; [now apply visited_incl in Hv | exact Hs].
Qed.

(** ** Sequences of insertNode *)

Lemma insertNode_returns (location : string) (draw : Z) (self : Treap.t) :
  exists self', Treap.insertNode location draw self = Ok self'.
Proof.
  unfold Treap.insertNode.
  destruct (insert_returns_node (Treap.root self) location draw)
    as (loc & p & l & r & ->). simpl. eauto.
Qed.

Lemma insertNodes_returns (ins : list (string * Z)) (self : Treap.t) :
  exists self', insertNodes ins self = Ok self'.
Proof.
  revert self. induction ins as [|[location draw] ins IH]; intros self; simpl.
  - eauto.
  - destruct (insertNode_returns location draw self) as (self1 & ->). simpl.
    apply IH.
Qed.

Section Invariant.

Variable P : TreapNode -> Prop.
Hypothesis P_insert : forall t location draw t',
  Treap.insert t location draw = Ok t' -> P t -> P t'.

Lemma insertNodes_invariant (ins : list (string * Z)) (self self' : Treap.t) :
  insertNodes ins self = Ok self' ->
  P (Treap.root self) -> P (Treap.root self').
Proof.
  revert self. induction ins as [|[location draw] ins IH]; intros self; simpl.
  - now intros [= <-].
  - intros H Hp. apply bind_Ok_inv in H as (self1 & H1 & H).
    apply (IH self1 H).
    unfold Treap.insertNode in H1.
    apply bind_Ok_inv in H1 as (t1 & Ht1 & [= <-]). simpl.
    eapply P_insert; eauto.
Qed.

End Invariant.

Lemma insertNodes_inorder (ins : list (string * Z)) (self self' : Treap.t) :
  insertNodes ins self = Ok self' ->
  Permutation (inorder (Treap.root self'))
              (rev (map fst ins) ++ inorder (Treap.root self)).
Proof.
  revert self. induction ins as [|[location draw] ins IH]; intros self; simpl.
  - now intros [= <-].
  - intros H. apply bind_Ok_inv in H as (self1 & H1 & H).
    apply IH in H. rewrite H, <- app_assoc. simpl.
    apply Permutation_app_head.
    unfold Treap.insertNode in H1.
    apply bind_Ok_inv in H1 as (t1 & Ht1 & [= <-]). simpl.
    now apply insert_inorder in Ht1.
Qed.

Lemma heap_insert t location draw t' :
  Treap.insert t location draw = Ok t' -> heap t -> heap t'.
Proof.
  intros H Hh.
  destruct t as [|loc p l r].
  - simpl in H. injection H as <-. simpl. tauto.
  - eapply (insert_heap_bounded _ _ _ _ p); eauto.
    apply heap_prio_le; [exact Hh | simpl; lia].
Qed.

(** ** Strings, continued *)

Lemma append_nil_r (s : string) : (s ++ "")%string = s.
Proof. induction s as [|a s IH]; simpl; congruence. Qed.

Lemma append_assoc (a b c : string) :
  ((a ++ b) ++ c)%string = (a ++ (b ++ c))%string.
Proof. induction a as [|x a IH]; simpl; congruence. Qed.

Lemma append_inv_head (a b c : string) :
  (a ++ b)%string = (a ++ c)%string -> b = c.
Proof. induction a as [|x a IH]; simpl; [auto | intros [= H]; auto]. Qed.

Lemma append_nil_inv (a b : string) : (a ++ b)%string = a -> b = "".
Proof.
  intros H. apply (append_inv_head a). now rewrite append_nil_r.
Qed.

Lemma string_eqb_cons (a b : ascii) (s t : string) :
  String.eqb (String a s) (String b t) = Ascii.eqb a b && String.eqb s t.
Proof. simpl. now destruct (Ascii.eqb a b). Qed.

Lemma lower_char_idem (c : ascii) : lower_char (lower_char c) = lower_char c.
Proof. destruct c as [[] [] [] [] [] [] [] []]; reflexivity. Qed.

Lemma lower_idem (s : string) : lower (lower s) = lower s.
Proof.
  induction s as [|a s IH]; simpl; [reflexivity|].
  now rewrite lower_char_idem, IH.
Qed.

Lemma lower_app (a b : string) :
  lower (a ++ b) = (lower a ++ lower b)%string.
Proof. induction a as [|x a IH]; simpl; congruence. Qed.


(** ** The children dict *)

Lemma dict_get_update (c c' : ascii) (f : TrieNode -> TrieNode) d :
  dict_get c' (dict_update c f d) =
  if Ascii.eqb c c' then Some (f (child_or_new c d)) else dict_get c' d.
Proof.
  unfold child_or_new.
  induction d as [|[k v] d IH]; simpl.
  - destruct (Ascii.eqb c c'); reflexivity.
  - destruct (Ascii.eqb_spec k c) as [->|Hkc]; simpl.
    + destruct (Ascii.eqb c c'); reflexivity.
    + rewrite IH. destruct (Ascii.eqb_spec c c') as [<-|Hcc].
      * apply Ascii.eqb_neq in Hkc. now rewrite Hkc.
      * reflexivity.
Qed.

Lemma dict_get_In (c : ascii) d v : dict_get c d = Some v -> In (c, v) d.
Proof.
  induction d as [|[k w] d IH]; simpl; [discriminate|].
  destruct (Ascii.eqb_spec k c) as [->|_].
  - intros [= ->]. now left.
  - intros H. right. auto.
Qed.

Lemma In_dict_get (c : ascii) d v :
  NoDup (map fst d) -> In (c, v) d -> dict_get c d = Some v.
Proof.
  induction d as [|[k w] d IH]; simpl; [contradiction|].
  intros Hnd [[= -> ->]|Hin].
  - now rewrite Ascii.eqb_refl.
  - apply NoDup_cons_iff in Hnd as (Hk & Hnd).
    destruct (Ascii.eqb_spec k c) as [->|_]; [|auto].
    exfalso. apply Hk. apply (in_map fst) in Hin. exact Hin.
Qed.

Lemma dict_update_In (c : ascii) (f : TrieNode -> TrieNode) d kv :
  In kv (dict_update c f d) ->
  In kv d \/ exists v, kv = (c, f v) /\ (In (c, v) d \/ v = newTrieNode).
Proof.
  induction d as [|[k w] d IH]; simpl.
  - intros [<-|[]]. right. eauto.
  - destruct (Ascii.eqb_spec k c) as [->|_]; simpl.
    + intros [<-|Hin]; [right; eauto | auto].
    + intros [<-|Hin]; [auto|].
      destruct (IH Hin) as [H|(v & -> & [H| ->])]; [auto | right | right]; eauto.
Qed.

Lemma dict_update_keys_In (c k : ascii) (f : TrieNode -> TrieNode) d :
  In k (map fst (dict_update c f d)) -> k = c \/ In k (map fst d).
Proof.
  induction d as [|[k' w] d IH]; simpl.
  - intros [<-|[]]. now left.
  - destruct (Ascii.eqb_spec k' c) as [->|_]; simpl.
    + tauto.
    + intros [<-|Hin]; [auto|]. destruct (IH Hin); auto.
Qed.

Lemma dict_update_NoDup (c : ascii) (f : TrieNode -> TrieNode) d :
  NoDup (map fst d) -> NoDup (map fst (dict_update c f d)).
Proof.
  induction d as [|[k w] d IH]; simpl; intros Hnd.
  - constructor; [tauto | constructor].
  - apply NoDup_cons_iff in Hnd as (Hk & Hnd).
    destruct (Ascii.eqb_spec k c) as [->|Hkc]; simpl.
    + now constructor.
    + constructor; [|auto].
      intros Hin. apply dict_update_keys_In in Hin as [->|Hin]; tauto.
Qed.

Lemma dict_update_fixed (c : ascii) (f : TrieNode -> TrieNode) d v :
  dict_get c d = Some v -> f v = v -> dict_update c f d = d.
Proof.
  induction d as [|[k w] d IH]; simpl; [discriminate|].
  destruct (Ascii.eqb_spec k c) as [->|_].
  - intros [= ->] ->. reflexivity.
  - intros Hg Hf. f_equal. auto.
Qed.

(** ** Trie.insert *)

Lemma spells_new (s : string) : spells newTrieNode s = false.
Proof. destruct s; reflexivity. Qed.

Lemma spells_cons (c : ascii) (s : string) (node : TrieNode) :
  spells node (String c s) = spells (child_or_new c (children node)) s.
Proof.
  unfold spells, child_or_new. simpl.
  destruct (dict_get c (children node)); [reflexivity|].
  symmetry. apply spells_new.
Qed.

Lemma spells_insert_loop (w s : string) (node : TrieNode) :
  spells (Trie.insert_loop w node) s = String.eqb s w || spells node s.
Proof.
  revert s node. induction w as [|c w IH]; intros s node.
  - destruct s as [|c' s]; [reflexivity|].
    now rewrite !spells_cons.
  - destruct s as [|c' s]; [reflexivity|].
    rewrite string_eqb_cons, spells_cons. simpl.
    rewrite (spells_cons c' s node).
    unfold child_or_new at 1. rewrite dict_get_update.
    rewrite (Ascii.eqb_sym c' c).
    destruct (Ascii.eqb_spec c c') as [<-|Hcc]; simpl.
    + apply IH.
    + reflexivity.
Qed.

Lemma spells_insertWords (words : list string) (self : Trie.t) (s : string) :
  spells (Trie.root (insertWords words self)) s = true <->
  (exists W, In W words /\ s = lower W) \/ spells (Trie.root self) s = true.
Proof.
  revert self. induction words as [|w words IH]; intros self; simpl.
  - split; [auto | intros [(W & [] & _)|H]; exact H].
  - rewrite IH. unfold Trie.insert. simpl. rewrite spells_insert_loop.
    rewrite orb_true_iff, String.eqb_eq. split.
    + intros [(W & HW & ->)|[->|H]]; eauto.
    + intros [(W & [<-|HW] & ->)|H]; eauto.
Qed.

Lemma insert_loop_unique (w : string) (node : TrieNode) :
  unique_keys node -> unique_keys (Trie.insert_loop w node).
Proof.
  revert node. induction w as [|c w IH]; intros node Hu.
  - destruct Hu as [ch e Hnd Hch]. simpl. now constructor.
  - destruct Hu as [ch e Hnd Hch]. simpl. constructor.
    + now apply dict_update_NoDup.
    + intros kv Hin.
      apply dict_update_In in Hin as [Hin|(v & -> & [Hin| ->])]; simpl.
      * auto.
      * apply IH. exact (Hch _ Hin).
      * apply IH. constructor; [constructor | intros ? []].
Qed.

Lemma insertWords_unique (words : list string) (self : Trie.t) :
  unique_keys (Trie.root self) ->
  unique_keys (Trie.root (insertWords words self)).
Proof.
  revert self. induction words as [|w words IH]; intros self Hu; simpl.
  - exact Hu.
  - apply IH. unfold Trie.insert. simpl. now apply insert_loop_unique.
Qed.

Lemma unique_keys_new : unique_keys (Trie.root Trie.new).
Proof. simpl. constructor; [constructor | intros ? []]. Qed.

Lemma insert_loop_spelt (w : string) (node : TrieNode) :
  spells node w = true -> Trie.insert_loop w node = node.
Proof.
  revert node. induction w as [|c w IH]; intros [ch e]; unfold spells; simpl.
  - now intros ->.
  - destruct (dict_get c ch) as [v|] eqn:Hg; [|discriminate].
    intros H. f_equal. apply dict_update_fixed with v; [exact Hg|].
    apply IH. exact H.
Qed.

(** ** Trie.findWords and Trie.search *)

Lemma findWords_In (node : TrieNode) (prefix r : string) :
  In r (Trie.findWords node prefix) <->
  (is_end_of_word node = true /\ r = prefix) \/
  exists kv, In kv (children node) /\
    In r (Trie.findWords (snd kv) (prefix ++ String (fst kv) "")).
Proof.
  destruct node as [ch e]. simpl. rewrite in_app_iff, in_flat_map.
  destruct e; simpl; intuition (try discriminate; subst; auto).
Qed.

Lemma findWords_extend (node : TrieNode) (prefix r : string) :
  In r (Trie.findWords node prefix) -> exists s, r = (prefix ++ s)%string.
Proof.
  revert prefix r. induction node as [ch e IH] using TrieNode_ind.
  intros prefix r Hin. apply findWords_In in Hin as [(_ & ->)|(kv & Hkv & Hin)].
  - exists "". now rewrite append_nil_r.
  - apply (IH kv Hkv) in Hin as (s & ->).
    rewrite append_assoc. eauto.
Qed.

Lemma findWords_spells (node : TrieNode) (prefix r : string) :
  unique_keys node ->
  In r (Trie.findWords node prefix) <->
  exists s, r = (prefix ++ s)%string /\ spells node s = true.
Proof.
  revert prefix r. induction node as [ch e IH] using TrieNode_ind.
  intros prefix r Hu. inversion Hu as [ch' e' Hnd Hch]; subst.
  rewrite findWords_In. simpl. split.
  - intros [(-> & ->)|([c child] & Hkv & Hin)].
    + exists "". now rewrite append_nil_r.
    + apply (IH _ Hkv _ _ (Hch _ Hkv)) in Hin as (s & -> & Hs). simpl.
      exists (String c s). rewrite append_assoc. split; [reflexivity|].
      unfold spells in *. simpl. now rewrite (In_dict_get _ _ _ Hnd Hkv).
  - intros (s & -> & Hs). destruct s as [|c s].
    + left. now rewrite append_nil_r.
    + right. unfold spells in Hs. simpl in Hs.
      destruct (dict_get c ch) as [child|] eqn:Hg; [|discriminate].
      apply dict_get_In in Hg. exists (c, child). split; [exact Hg|].
      apply (IH _ Hg _ _ (Hch _ Hg)). simpl.
      exists s. now rewrite append_assoc.
Qed.

Lemma findWords_NoDup (node : TrieNode) (prefix : string) :
  unique_keys node -> NoDup (Trie.findWords node prefix).
Proof.
  revert prefix. induction node as [ch e IH] using TrieNode_ind.
  intros prefix Hu. inversion Hu as [ch' e' Hnd Hch]; subst. simpl.
  apply NoDup_app.
  - destruct e; repeat constructor. intros [].
  - clear Hu. induction ch as [|[c child] ch IHch]; simpl; [constructor|].
    apply NoDup_cons_iff in Hnd as (Hc & Hnd).
    apply NoDup_app.
    + apply (IH (c, child)); [now left | apply (Hch (c, child)); now left].
    + apply IHch; auto.
      * intros kv Hkv. apply IH. now right.
      * intros kv Hkv. apply Hch. now right.
    + intros r Hr Hr'. apply findWords_extend in Hr as (s & ->).
      apply in_flat_map in Hr' as ([c' child'] & Hkv & Hr').
      apply findWords_extend in Hr' as (s' & Hr'). simpl in Hr'.
      rewrite !append_assoc in Hr'. apply append_inv_head in Hr'.
      simpl in Hr'. injection Hr' as -> _.
      apply Hc. apply (in_map fst) in Hkv. exact Hkv.
  - intros r Hr Hr'. assert (r = prefix) as ->.
    { destruct e; simpl in Hr; [destruct Hr as [<-|[]]; auto | contradiction]. }
    apply in_flat_map in Hr' as ([c child] & Hkv & Hr').
    apply findWords_extend in Hr' as (s & Hr'). simpl in Hr'.
    rewrite append_assoc in Hr'. symmetry in Hr'.
    apply append_nil_inv in Hr'. discriminate.
Qed.

Lemma search_loop_app (a b : string) (node : TrieNode) :
  Trie.search_loop (a ++ b) node =
  match Trie.search_loop a node with
  | Some m => Trie.search_loop b m
  | None => None
  end.
Proof.
  revert node. induction a as [|c a IH]; intros node; simpl; [reflexivity|].
  destruct (dict_get c (children node)); auto.
Qed.

Lemma search_loop_unique (s : string) (node m : TrieNode) :
  Trie.search_loop s node = Some m -> unique_keys node -> unique_keys m.
Proof.
  revert node. induction s as [|c s IH]; intros node; simpl.
  - now intros [= ->].
  - destruct (dict_get c (children node)) as [child|] eqn:Hg; [|discriminate].
    intros H Hu. apply (IH child H).
    destruct Hu as [ch e _ Hch]. simpl in Hg.
    apply dict_get_In in Hg. exact (Hch _ Hg).
Qed.

(** What [search] returns, for a trie with unique keys: the strings that
    start with the lower-cased prefix and that the trie spells. *)
Lemma trie_search_In (self : Trie.t) (prefix r : string) :
  unique_keys (Trie.root self) ->
  In r (Trie.search prefix self) <->
  String.prefix (lower prefix) r = true /\ spells (Trie.root self) r = true.
Proof.
  intros Hu. unfold Trie.search.
  destruct (Trie.search_loop (lower prefix) (Trie.root self)) as [m|] eqn:Hm.
  - rewrite findWords_spells by (eapply search_loop_unique; eauto). split.
    + intros (s & -> & Hs). split; [apply prefix_app|].
      unfold spells in *. now rewrite search_loop_app, Hm.
    + intros (Hp & Hs). apply prefix_inv in Hp as (s & ->).
      exists s. split; [reflexivity|].
      unfold spells in *. now rewrite search_loop_app, Hm in Hs.
  - split; [intros []|]. intros (Hp & Hs).
    apply prefix_inv in Hp as (s & ->).
    unfold spells in Hs. rewrite search_loop_app, Hm in Hs. discriminate.
Qed.

Lemma search_NoDup (self : Trie.t) (prefix : string) :
  unique_keys (Trie.root self) -> NoDup (Trie.search prefix self).
Proof.
  intros Hu. unfold Trie.search.
  destruct (Trie.search_loop (lower prefix) (Trie.root self)) as [m|] eqn:Hm.
  - apply findWords_NoDup. eapply search_loop_unique; eauto.
  - constructor.
Qed.

Lemma search_insertWords (words : list string) (prefix r : string) :
  In r (Trie.search prefix (insertWords words Trie.new)) <->
  String.prefix (lower prefix) r = true /\ exists W, In W words /\ r = lower W.
Proof.
  rewrite trie_search_In by (apply insertWords_unique, unique_keys_new).
  rewrite spells_insertWords. simpl. rewrite spells_new.
  intuition discriminate.
Qed.

(** ** LocationGraph *)

Lemma addLocations_spec (departure arrival : string) (draw : Z)
  (self : LocationGraph.t) :
  let key := LocationGraph.combined departure arrival in
  exists treap',
    Treap.insertNode key draw (LocationGraph.treap self) = Ok treap' /\
    LocationGraph.addLocations [departure; arrival] draw self =
    Ok (PyNone,
        {| LocationGraph.locations := LocationGraph.locations self ++ [key];
           LocationGraph.treap := treap';
           LocationGraph.trie := Trie.insert key (LocationGraph.trie self) |}).
Proof.
  intros key.
  destruct (insertNode_returns key draw (LocationGraph.treap self))
    as (treap' & Ht).
  exists treap'. split; [exact Ht|].
  unfold LocationGraph.addLocations. simpl. fold key. now rewrite Ht.
Qed.

Lemma insertWords_app (ws1 ws2 : list string) (self : Trie.t) :
  insertWords (ws1 ++ ws2) self = insertWords ws2 (insertWords ws1 self).
Proof.
  revert self. induction ws1 as [|w ws1 IH]; intros self; simpl; auto.
Qed.

Lemma addRoutes_spec (routes : list (string * string * Z))
  (self : LocationGraph.t) :
  exists treap',
    insertNodes (map route_ins routes) (LocationGraph.treap self) = Ok treap' /\
    addRoutes routes self =
    Ok {| LocationGraph.locations :=
            LocationGraph.locations self ++ map route_key routes;
          LocationGraph.treap := treap';
          LocationGraph.trie :=
            insertWords (map route_key routes) (LocationGraph.trie self) |}.
Proof.
  revert self.
  induction routes as [|[[departure arrival] draw] routes IH]; intros self.
  - exists (LocationGraph.treap self). simpl. rewrite app_nil_r.
    now destruct self.
  - destruct (addLocations_spec departure arrival draw self) as (t1 & Ht1 & Ha).
    simpl. rewrite Ha. simpl.
    unfold route_key at 1. simpl. rewrite Ht1. simpl.
    match goal with |- context [addRoutes routes ?g] =>
      destruct (IH g) as (t2 & Ht2 & Hr) end.
    simpl in Ht2, Hr. exists t2. split; [exact Ht2|].
    rewrite Hr. now rewrite <- app_assoc.
Qed.

(** A graph built by [addRoutes] from an empty one: its list, its trie and
    the keys of its treap. *)
Lemma addRoutes_new (routes : list (string * string * Z)) (g : LocationGraph.t) :
  addRoutes routes LocationGraph.new = Ok g ->
  LocationGraph.locations g = map route_key routes /\
  LocationGraph.trie g = insertWords (map route_key routes) Trie.new /\
  Permutation (inorder (Treap.root (LocationGraph.treap g)))
              (map route_key routes).
Proof.
  destruct (addRoutes_spec routes LocationGraph.new) as (t & Ht & ->).
  intros [= <-]. simpl. repeat split.
  apply insertNodes_inorder in Ht. simpl in Ht.
  rewrite app_nil_r, map_map in Ht. simpl in Ht.
  rewrite Ht. symmetry. apply Permutation_rev.
Qed.

Lemma addRoutes_returns (routes : list (string * string * Z))
  (self : LocationGraph.t) :
  exists g, addRoutes routes self = Ok g.
Proof.
  destruct (addRoutes_spec routes self) as (t & _ & ->). eauto.
Qed.

Lemma no_element_nil {A : Type} (l : list A) : (forall x, ~ In x l) -> l = [].
Proof.
  destruct l as [|x l]; [reflexivity|]. intros H. destruct (H x). now left.
Qed.

Lemma submitLocations_valid (arrival_text destination_text : string)
  (draw : Z) (graph : LocationGraph.t) :
  strip arrival_text <> "" -> strip destination_text <> "" ->
  submitLocations arrival_text destination_text draw graph =
  (r <- LocationGraph.addLocations
          [strip arrival_text; strip destination_text] draw graph ;;
   Ok (snd r)).
Proof.
  intros Ha Hd. unfold submitLocations.
  apply String.eqb_neq in Ha, Hd. now rewrite Ha, Hd.
Qed.

Lemma submitLocations_blank (arrival_text destination_text : string)
  (draw : Z) (graph : LocationGraph.t) :
  strip arrival_text = "" \/ strip destination_text = "" ->
  submitLocations arrival_text destination_text draw graph = Ok graph.
Proof.
  unfold submitLocations. intros [->| ->]; simpl; [reflexivity|].
  now rewrite andb_false_r.
Qed.

(** * The claims *)

(** C1, as stated, fails: after the three routes are added, the strings
    that [autocomplete("new")] returns are not the canonical keys, and
    [autocomplete("newa")] is not ["Newark -> LA"]. *)
Lemma C1_counterexample :
  exists g,
    addRoutes [("New York", "Boston", 50%Z); ("New Jersey", "Miami", 50%Z);
               ("Newark", "LA", 50%Z)] LocationGraph.new = Ok g /\
    ~ Permutation (LocationGraph.autocomplete "new" g)
        ["New York -> Boston"; "New Jersey -> Miami"; "Newark -> LA"] /\
    LocationGraph.autocomplete "newa" g <> ["Newark -> LA"].
Proof.
  eexists. split; [vm_compute; reflexivity|]. split.
  - intros H.
    assert (Hin : In "New York -> Boston"
                     ["New York -> Boston"; "New Jersey -> Miami";
                      "Newark -> LA"]) by (now left).
    apply (Permutation_in _ (Permutation_sym H)) in Hin.
    vm_compute in Hin. intuition discriminate.
  - vm_compute. discriminate.
Qed.

(** C1, amended: after the routes ("New York","Boston"),
    ("New Jersey","Miami"), ("Newark","LA") are added to a fresh
    LocationGraph, whatever the priorities drawn, the list of locations
    holds the three canonical keys, [autocomplete("new")] returns exactly
    the three keys in lower case, in the order of insertion, and
    [autocomplete("newa")] returns only "newark -> la". *)
Theorem C1_autocomplete_scenario (d1 d2 d3 : Z) :
  exists g,
    addRoutes [("New York", "Boston", d1); ("New Jersey", "Miami", d2);
               ("Newark", "LA", d3)] LocationGraph.new = Ok g /\
    LocationGraph.locations g =
      ["New York -> Boston"; "New Jersey -> Miami"; "Newark -> LA"] /\
    LocationGraph.autocomplete "new" g =
      ["new york -> boston"; "new jersey -> miami"; "newark -> la"] /\
    LocationGraph.autocomplete "newa" g = ["newark -> la"].
Proof.
  destruct (addRoutes_spec
              [("New York", "Boston", d1); ("New Jersey", "Miami", d2);
               ("Newark", "LA", d3)] LocationGraph.new) as (t & _ & Hg).
  eexists. split; [exact Hg|].
  unfold LocationGraph.autocomplete. simpl LocationGraph.trie.
  repeat split; vm_compute; reflexivity.
Qed.

(** C2: [searchPrefix] visits one path from the root, to the left child
    when the prefix is less than the node's key and to the right child
    otherwise, and returns, in the order of the visit, the visited keys
    that start with the prefix; on [None] it returns the empty list, and at
    a node it is the node's key, if it starts with the prefix, followed by
    the search of that one child. *)
Theorem C2_searchPrefix_single_path (self : Treap.t) (prefix : string) :
  Treap.searchPrefix prefix self =
    filter (fun key => startswith key prefix)
           (visited (Treap.root self) prefix) /\
  Treap.search Null prefix = [] /\
  (forall loc p l r,
     Treap.search (mkTreapNode loc p l r) prefix =
     (if startswith loc prefix then [loc] else []) ++
     Treap.search (if String.ltb prefix loc then l else r) prefix) /\
  (forall loc p l r,
     visited (mkTreapNode loc p l r) prefix =
     loc :: visited (if String.ltb prefix loc then l else r) prefix) /\
  (forall key,
     startswith key prefix = true <->
     exists rest, key = (prefix ++ rest)%string).
Proof.
  split; [apply search_visited|]. split; [reflexivity|].
  split; [|split].
  - intros loc p l r. simpl. now destruct (String.ltb prefix loc).
  - intros loc p l r. simpl. now destruct (String.ltb prefix loc).
  - intros key. apply startswith_iff.
Qed.

(** C3: whatever keys are inserted into an empty treap by [insertNode],
    with whatever priorities, every call returns, the tree holds the
    inserted keys, its in-order traversal is in non-decreasing order, and
    at every node the keys of the left subtree are at most the node's key
    and the keys of the right subtree at least the node's key.  The two
    forms of the invariant are equivalent on every tree, and a key equal
    to the key of a node is inserted into the node's right branch. *)
Theorem C3_bst_invariant (ins : list (string * Z)) :
  (exists self,
     insertNodes ins Treap.new = Ok self /\
     Permutation (inorder (Treap.root self)) (map fst ins) /\
     Sorted str_le (inorder (Treap.root self)) /\
     bst (Treap.root self)) /\
  (forall t, Sorted str_le (inorder t) <-> bst t) /\
  (forall loc pr l r draw,
     exists r' rp,
       Treap.insert r loc draw = Ok r' /\ get_priority r' = Ok rp /\
       Treap.insert (mkTreapNode loc pr l r) loc draw =
       if (rp >? pr)%Z then Treap.rotateLeft (mkTreapNode loc pr l r')
       else Ok (mkTreapNode loc pr l r')).
Proof.
  split; [|split].
  - destruct (insertNodes_returns ins Treap.new) as (self & H).
    exists self. split; [exact H|].
    assert (Hb : bst (Treap.root self)).
    { apply (insertNodes_invariant bst insert_bst _ _ _ H). exact I. }
    split; [|split; [now apply bst_iff_Sorted | exact Hb]].
    apply insertNodes_inorder in H. simpl in H. rewrite app_nil_r in H.
    rewrite H. symmetry. apply Permutation_rev.
  - intros t. symmetry. apply bst_iff_Sorted.
  - intros loc pr l r draw.
    destruct (insert_returns_node r loc draw) as (cloc & cp & cl & cr & Hr).
    exists (mkTreapNode cloc cp cl cr), cp.
    split; [exact Hr|]. split; [reflexivity|].
    simpl. now rewrite ltb_irrefl, Hr.
Qed.

(** After a rotation a key equal to the key of the root can stand in the
    left subtree: the order of C3 is not strict on the left. *)
Example equal_key_rotated_left :
  insertNodes [("a", 50%Z); ("a", 80%Z)] Treap.new =
  Ok {| Treap.root :=
          mkTreapNode "a" 80 (mkTreapNode "a" 50 Null Null) Null |}.
Proof. reflexivity. Qed.

(** C4: whatever keys are inserted into an empty treap by [insertNode],
    with whatever priorities, every call returns and, in the tree, the
    priority of every node is at least the priority of each of its
    children.  At a node, [insert] inserts into the left child when the key
    is less than the node's key and into the right child otherwise, and
    when the priority of that child then exceeds the node's, it rotates
    right for the left child and left for the right child. *)
Theorem C4_heap_invariant (ins : list (string * Z)) :
  (exists self,
     insertNodes ins Treap.new = Ok self /\ heap (Treap.root self)) /\
  (forall loc pr l r location draw,
     exists c cp,
       Treap.insert (if String.ltb location loc then l else r) location draw
         = Ok c /\
       get_priority c = Ok cp /\
       Treap.insert (mkTreapNode loc pr l r) location draw =
       if String.ltb location loc then
         if (cp >? pr)%Z then Treap.rotateRight (mkTreapNode loc pr c r)
         else Ok (mkTreapNode loc pr c r)
       else
         if (cp >? pr)%Z then Treap.rotateLeft (mkTreapNode loc pr l c)
         else Ok (mkTreapNode loc pr l c)).
Proof.
  split.
  - destruct (insertNodes_returns ins Treap.new) as (self & H).
    exists self. split; [exact H|].
    apply (insertNodes_invariant heap heap_insert _ _ _ H). exact I.
  - intros loc pr l r location draw.
    destruct (insert_returns_node
                (if String.ltb location loc then l else r) location draw)
      as (cloc & cp & cl & cr & Hc).
    exists (mkTreapNode cloc cp cl cr), cp.
    split; [exact Hc|]. split; [reflexivity|].
    simpl. destruct (String.ltb location loc); now rewrite Hc.
Qed.

(** C5, as stated, fails: [addLocations] has no [return], the call gives
    [None] and not the canonical key. *)
Lemma C5_counterexample :
  strip "A" <> "" /\ strip "B" <> "" /\
  exists g,
    LocationGraph.addLocations ["A"; "B"] 1%Z LocationGraph.new =
      Ok (PyNone, g) /\
    PyNone <> PyStr "A -> B".
Proof.
  split; [vm_compute; discriminate|]. split; [vm_compute; discriminate|].
  eexists. split; [vm_compute; reflexivity | discriminate].
Qed.

(** C5, amended: for every pair of departure and arrival strings that are
    non-empty after trimming, [addLocations] builds the key
    "{departure} -> {arrival}", inserts it into the treap and into the
    trie, appends it to the list of locations, and returns [None]. *)
Theorem C5_addLocations (departure arrival : string) (draw : Z)
  (self : LocationGraph.t) :
  strip departure <> "" -> strip arrival <> "" ->
  let key := (departure ++ " -> " ++ arrival)%string in
  exists treap',
    Treap.insertNode key draw (LocationGraph.treap self) = Ok treap' /\
    LocationGraph.addLocations [departure; arrival] draw self =
    Ok (PyNone,
        {| LocationGraph.locations := LocationGraph.locations self ++ [key];
           LocationGraph.treap := treap';
           LocationGraph.trie := Trie.insert key (LocationGraph.trie self) |}).
Proof.
  intros _ _. apply addLocations_spec.
Qed.

Lemma C5_addLocations_witness :
  strip "New York" <> "" /\ strip "Boston" <> "" /\
  exists treap',
    Treap.insertNode "New York -> Boston" 7%Z Treap.new = Ok treap' /\
    LocationGraph.addLocations ["New York"; "Boston"] 7%Z LocationGraph.new =
    Ok (PyNone,
        {| LocationGraph.locations := ["New York -> Boston"];
           LocationGraph.treap := treap';
           LocationGraph.trie := Trie.insert "New York -> Boston" Trie.new |}).
Proof.
  split; [vm_compute; discriminate|]. split; [vm_compute; discriminate|].
  apply (C5_addLocations "New York" "Boston" 7%Z LocationGraph.new);
    vm_compute; discriminate.
Defined.

(** C6, as stated, fails: after "A" is inserted, "a" is a prefix of "A"
    when case is ignored, and [search("a")] does not contain "A". *)
Lemma C6_counterexample :
  In "A" ["A"] /\
  String.prefix (lower "a") (lower "A") = true /\
  ~ In "A" (Trie.search "a" (insertWords ["A"] Trie.new)).
Proof.
  split; [now left|]. split; [reflexivity|].
  vm_compute. intuition discriminate.
Qed.

(** C6, amended: for every word W inserted into the trie and every string
    p that is a prefix of W when case is ignored, [search(p)] contains W in
    lower case. *)
Theorem C6_trie_completeness (words : list string) (W p : string) :
  In W words ->
  String.prefix (lower p) (lower W) = true ->
  In (lower W) (Trie.search p (insertWords words Trie.new)).
Proof.
  intros HW Hp. apply search_insertWords. eauto.
Qed.

Lemma C6_trie_completeness_witness :
  In "New York -> Boston" ["Newark -> LA"; "New York -> Boston"] /\
  String.prefix (lower "NEW y") (lower "New York -> Boston") = true /\
  In (lower "New York -> Boston")
     (Trie.search "NEW y"
        (insertWords ["Newark -> LA"; "New York -> Boston"] Trie.new)).
Proof.
  assert (HW : In "New York -> Boston"
                  ["Newark -> LA"; "New York -> Boston"])
    by (right; left; reflexivity).
  split; [exact HW|]. split; [reflexivity|].
  apply (C6_trie_completeness
           ["Newark -> LA"; "New York -> Boston"] "New York -> Boston" "NEW y").
  - exact HW.
  - reflexivity.
Defined.

(** C7, as stated, fails: after "A" is inserted, [search("a")] returns "a",
    which was not inserted. *)
Lemma C7_counterexample :
  In "a" (Trie.search "a" (insertWords ["A"] Trie.new)) /\ ~ In "a" ["A"].
Proof.
  split; [vm_compute; now left|]. simpl. intuition discriminate.
Qed.

(** C7, amended: for every prefix p and every trie reached by a sequence
    of insertions, every string returned by [search(p)] starts with p when
    case is ignored and is the lower case of a word that was inserted. *)
Theorem C7_trie_soundness (words : list string) (p r : string) :
  In r (Trie.search p (insertWords words Trie.new)) ->
  startswith (lower r) (lower p) = true /\
  exists W, In W words /\ r = lower W.
Proof.
  intros H. apply search_insertWords in H as (Hp & W & HW & ->).
  split; [|eauto]. unfold startswith. now rewrite lower_idem.
Qed.

Lemma C7_trie_soundness_witness :
  In "newark -> la"
     (Trie.search "NewA"
        (insertWords ["Newark -> LA"; "New York -> Boston"] Trie.new)) /\
  startswith (lower "newark -> la") (lower "NewA") = true /\
  exists W, In W ["Newark -> LA"; "New York -> Boston"] /\
            "newark -> la" = lower W.
Proof.
  assert (Hr : In "newark -> la"
                  (Trie.search "NewA"
                     (insertWords ["Newark -> LA"; "New York -> Boston"]
                        Trie.new)))
    by (vm_compute; left; reflexivity).
  split; [exact Hr|].
  exact (C7_trie_soundness
           ["Newark -> LA"; "New York -> Boston"] "NewA" "newark -> la" Hr).
Defined.

(** C8: inserting a word into the trie a second time leaves the trie as it
    is, directly after the first time and at any later time.  When a route
    that was added before is added again, the call returns, the list of
    locations grows by the key, the trie is unchanged, [autocomplete]
    returns for every prefix the same list as before, and no string stands
    twice in that list. *)
Theorem C8_duplicate_insertion :
  (forall word self,
     Trie.insert word (Trie.insert word self) = Trie.insert word self) /\
  (forall words word,
     In word words ->
     Trie.insert word (insertWords words Trie.new) =
     insertWords words Trie.new) /\
  (forall routes departure arrival d draw,
     In (departure, arrival, d) routes ->
     exists g g',
       addRoutes routes LocationGraph.new = Ok g /\
       LocationGraph.addLocations [departure; arrival] draw g =
         Ok (PyNone, g') /\
       LocationGraph.locations g' =
         LocationGraph.locations g ++
         [LocationGraph.combined departure arrival] /\
       LocationGraph.trie g' = LocationGraph.trie g /\
       forall prefix,
         LocationGraph.autocomplete prefix g' =
         LocationGraph.autocomplete prefix g /\
         NoDup (LocationGraph.autocomplete prefix g')).
Proof.
  assert (Hagain : forall words word, In word words ->
            Trie.insert word (insertWords words Trie.new) =
            insertWords words Trie.new).
  { intros words word Hin. unfold Trie.insert.
    rewrite insert_loop_spelt; [now destruct (insertWords words Trie.new)|].
    apply spells_insertWords. left. eauto. }
  split; [|split; [exact Hagain|]].
  - intros word self. unfold Trie.insert. simpl.
    rewrite (insert_loop_spelt (lower word)); [reflexivity|].
    rewrite spells_insert_loop, String.eqb_refl. reflexivity.
  - intros routes departure arrival d draw Hin.
    destruct (addRoutes_returns routes LocationGraph.new) as (g & Hg).
    exists g. pose proof (addRoutes_new _ _ Hg) as (Hloc & Htrie & _).
    destruct (addLocations_spec departure arrival draw g) as (t' & _ & Ha).
    eexists. split; [exact Hg|]. split; [exact Ha|]. simpl.
    assert (Hsame : Trie.insert (LocationGraph.combined departure arrival)
                      (LocationGraph.trie g) = LocationGraph.trie g).
    { rewrite Htrie. apply Hagain.
      apply (in_map route_key) in Hin. exact Hin. }
    split; [reflexivity|]. split; [exact Hsame|].
    intros prefix. unfold LocationGraph.autocomplete. simpl.
    rewrite Hsame. split; [reflexivity|].
    apply search_NoDup. rewrite Htrie.
    apply insertWords_unique, unique_keys_new.
Qed.

Lemma C8_duplicate_insertion_witness :
  In ("Newark", "LA", 4%Z) [("Newark", "LA", 4%Z)] /\
  exists g g',
    addRoutes [("Newark", "LA", 4%Z)] LocationGraph.new = Ok g /\
    LocationGraph.addLocations ["Newark"; "LA"] 9%Z g = Ok (PyNone, g') /\
    LocationGraph.trie g' = LocationGraph.trie g.
Proof.
  assert (Hin : In ("Newark", "LA", 4%Z) [("Newark", "LA", 4%Z)])
    by (left; reflexivity).
  split; [exact Hin|].
  destruct C8_duplicate_insertion as (_ & _ & H).
  destruct (H [("Newark", "LA", 4%Z)] "Newark" "LA" 4%Z 9%Z Hin)
    as (g & g' & Hg & Ha & _ & Ht & _).
  exists g, g'. auto.
Defined.

(** C9: [search] and [searchPrefix] are total functions to lists: no call
    raises.  In the graph that adding any routes to a fresh one gives,
    when no stored key starts with the prefix, case ignored,
    [autocomplete] returns the empty list, and when no stored key starts
    with the prefix [searchLocations] returns the empty list.  In every
    trie, [search] returns the empty list when a character of the
    lower-cased prefix has no child at the node that the characters before
    it lead to; on the empty treap [searchPrefix] returns the empty
    list. *)
Theorem C9_no_match_is_empty :
  (forall routes,
     exists g,
       addRoutes routes LocationGraph.new = Ok g /\
       forall prefix,
         ((forall key, In key (LocationGraph.locations g) ->
                       startswith (lower key) (lower prefix) = false) ->
          LocationGraph.autocomplete prefix g = []) /\
         ((forall key, In key (LocationGraph.locations g) ->
                       startswith key prefix = false) ->
          LocationGraph.searchLocations prefix g = [])) /\
  (forall self before char after node,
     Trie.search_loop (lower before) (Trie.root self) = Some node ->
     dict_get (lower_char char) (children node) = None ->
     Trie.search (before ++ String char after) self = []) /\
  (forall prefix, Treap.searchPrefix prefix Treap.new = []).
Proof.
  split; [|split].
  - intros routes.
    destruct (addRoutes_returns routes LocationGraph.new) as (g & Hg).
    exists g. split; [exact Hg|].
    apply addRoutes_new in Hg as (Hloc & Htrie & Hperm).
    intros prefix. split; intros Hno; apply no_element_nil; intros r Hr.
    + unfold LocationGraph.autocomplete in Hr. rewrite Htrie in Hr.
      apply search_insertWords in Hr as (Hp & W & HW & ->).
      rewrite <- Hloc in HW. apply Hno in HW.
      unfold startswith in HW. congruence.
    + apply treap_search_In in Hr as (Hin & Hs).
      apply (Permutation_in _ Hperm) in Hin. rewrite <- Hloc in Hin.
      apply Hno in Hin. congruence.
  - intros self before char after node Hnode Hnone.
    unfold Trie.search. rewrite lower_app, search_loop_app, Hnode.
    simpl. now rewrite Hnone.
  - reflexivity.
Qed.

Lemma C9_no_match_is_empty_witness :
  (exists g,
     addRoutes [("Newark", "LA", 4%Z)] LocationGraph.new = Ok g /\
     LocationGraph.autocomplete "nex" g = [] /\
     LocationGraph.searchLocations "Nex" g = []) /\
  Trie.search_loop (lower "ne") (Trie.root (Trie.insert "Newark -> LA" Trie.new))
    = Some (mkTrieNode
              [("w"%char, Trie.insert_loop "ark -> la" newTrieNode)] false) /\
  Trie.search "neXt" (Trie.insert "Newark -> LA" Trie.new) = [].
Proof.
  destruct C9_no_match_is_empty as (Hgraph & Htrie & _).
  split; [|split; [reflexivity|]].
  - destruct (Hgraph [("Newark", "LA", 4%Z)]) as (g & Hg & Hno).
    exists g. split; [exact Hg|].
    pose proof Hg as Hg'. vm_compute in Hg'. injection Hg' as <-.
    split.
    + apply (Hno "nex"). intros key [<-|[]]. reflexivity.
    + apply (Hno "Nex"). intros key [<-|[]]. reflexivity.
  - apply (Htrie (Trie.insert "Newark -> LA" Trie.new) "ne" "X"%char "t"
             (mkTrieNode
                [("w"%char,
                  Trie.insert_loop "ark -> la" newTrieNode)] false));
      reflexivity.
Defined.

(** C10: in the graph that adding any routes to a fresh one gives, every
    string that [autocomplete] returns is in lower case and is the lower
    case of a stored key; a key that is not in lower case is never
    returned. *)
Theorem C10_autocomplete_lower_case (routes : list (string * string * Z)) :
  exists g,
    addRoutes routes LocationGraph.new = Ok g /\
    forall prefix r,
      In r (LocationGraph.autocomplete prefix g) ->
      lower r = r /\
      (exists key, In key (LocationGraph.locations g) /\ r = lower key) /\
      (forall key, lower key <> key -> r <> key).
Proof.
  destruct (addRoutes_returns routes LocationGraph.new) as (g & Hg).
  exists g. split; [exact Hg|].
  apply addRoutes_new in Hg as (Hloc & Htrie & _).
  intros prefix r Hr.
  unfold LocationGraph.autocomplete in Hr. rewrite Htrie in Hr.
  apply search_insertWords in Hr as (_ & W & HW & ->).
  rewrite <- Hloc in HW.
  split; [apply lower_idem|]. split; [eauto|].
  intros key Hkey Heq. apply Hkey. rewrite <- Heq. apply lower_idem.
Qed.

Lemma C10_autocomplete_lower_case_witness :
  exists g,
    addRoutes [("Newark", "LA", 4%Z)] LocationGraph.new = Ok g /\
    In "newark -> la" (LocationGraph.autocomplete "NEW" g) /\
    lower "newark -> la" = "newark -> la" /\
    (exists key, In key (LocationGraph.locations g) /\
                 "newark -> la" = lower key) /\
    (forall key, lower key <> key -> "newark -> la" <> key).
Proof.
  destruct (C10_autocomplete_lower_case [("Newark", "LA", 4%Z)])
    as (g & Hg & H).
  exists g. split; [exact Hg|].
  pose proof Hg as Hg'. vm_compute in Hg'. injection Hg' as <-.
  assert (Hin : In "newark -> la"
                   (LocationGraph.autocomplete "NEW"
                      {| LocationGraph.locations := ["Newark -> LA"];
                         LocationGraph.treap :=
                           {| Treap.root :=
                                mkTreapNode "Newark -> LA" 4 Null Null |};
                         LocationGraph.trie :=
                           Trie.insert "Newark -> LA" Trie.new |}))
    by (vm_compute; left; reflexivity).
  split; [exact Hin|]. exact (H "NEW" "newark -> la" Hin).
Defined.

(** * Further properties *)

(** ** Rotations *)

Lemma rotateRight_nodes (t t' : TreapNode) :
  Treap.rotateRight t = Ok t' -> nodes t' = nodes t.
Proof.
  destruct t as [|loc pr [|lloc lpr ll lr] r]; simpl; try discriminate.
  intros [= <-]. simpl. now rewrite <- app_assoc.
Qed.

Lemma rotateLeft_nodes (t t' : TreapNode) :
  Treap.rotateLeft t = Ok t' -> nodes t' = nodes t.
Proof.
  destruct t as [|loc pr l [|rloc rpr rl rr]]; simpl; try discriminate.
  intros [= <-]. simpl. now rewrite <- app_assoc.
Qed.

Lemma inorder_nodes (t : TreapNode) : inorder t = map fst (nodes t).
Proof.
  induction t as [|loc p l IHl r IHr]; simpl; [reflexivity|].
  rewrite map_app. simpl. now rewrite IHl, IHr.
Qed.


(** X1: a rotation that returns keeps the keys and the priorities of the
    tree and their in-order sequence, and so keeps a search tree a search
    tree. *)
Theorem X1_rotation_keeps_order (t t' : TreapNode) :
  Treap.rotateRight t = Ok t' \/ Treap.rotateLeft t = Ok t' ->
  nodes t' = nodes t /\ inorder t' = inorder t /\ (bst t -> bst t').
Proof.
  intros H.
  assert (Hn : nodes t' = nodes t).
  { destruct H as [H|H];
      [now apply rotateRight_nodes | now apply rotateLeft_nodes]. }
  assert (Hi : inorder t' = inorder t) by (now rewrite !inorder_nodes, Hn).
  repeat split; auto.
  rewrite !bst_iff_sorted, Hi. auto.
Qed.

Lemma X1_rotation_keeps_order_witness :
  Treap.rotateRight
    (mkTreapNode "m" 3 (mkTreapNode "c" 9 Null (mkTreapNode "f" 1 Null Null))
                 Null) =
    Ok (mkTreapNode "c" 9 Null
          (mkTreapNode "m" 3 (mkTreapNode "f" 1 Null Null) Null)) /\
  inorder (mkTreapNode "c" 9 Null
             (mkTreapNode "m" 3 (mkTreapNode "f" 1 Null Null) Null)) =
  ["c"; "f"; "m"].
Proof.
  split; [reflexivity|].
  apply (X1_rotation_keeps_order
           (mkTreapNode "m" 3
              (mkTreapNode "c" 9 Null (mkTreapNode "f" 1 Null Null)) Null)).
  left. reflexivity.
Defined.

(** X2: the two rotations undo each other: rotating the result of a right
    rotation to the left gives the tree back, and the other way round. *)
Theorem X2_rotations_inverse (t t' : TreapNode) :
  (Treap.rotateRight t = Ok t' -> Treap.rotateLeft t' = Ok t) /\
  (Treap.rotateLeft t = Ok t' -> Treap.rotateRight t' = Ok t).
Proof.
  split.
  - destruct t as [|loc pr [|lloc lpr ll lr] r]; simpl; try discriminate.
    now intros [= <-].
  - destruct t as [|loc pr l [|rloc rpr rl rr]]; simpl; try discriminate.
    now intros [= <-].
Qed.

Lemma X2_rotations_inverse_witness :
  Treap.rotateRight
    (mkTreapNode "m" 3 (mkTreapNode "c" 9 Null Null) Null) =
    Ok (mkTreapNode "c" 9 Null (mkTreapNode "m" 3 Null Null)) /\
  Treap.rotateLeft (mkTreapNode "c" 9 Null (mkTreapNode "m" 3 Null Null)) =
    Ok (mkTreapNode "m" 3 (mkTreapNode "c" 9 Null Null) Null).
Proof.
  split; [reflexivity|].
  apply (X2_rotations_inverse
           (mkTreapNode "m" 3 (mkTreapNode "c" 9 Null Null) Null)).
  reflexivity.
Defined.

(** ** The in-order sequence after an insertion *)

Lemma str_le_not_ltb (a b : string) : str_le a b -> String.ltb b a = false.
Proof.
  intros H. apply str_le_cases in H as [->|H]; [apply ltb_irrefl|].
  unfold String.ltb. rewrite String.compare_antisym, H. reflexivity.
Qed.

Lemma insort_app_lt (n x : string * Z) (xs ys : list (string * Z)) :
  String.ltb (fst n) (fst x) = true ->
  insort n (xs ++ x :: ys) = insort n xs ++ x :: ys.
Proof.
  intros Hlt. induction xs as [|y xs IH]; simpl.
  - now rewrite Hlt.
  - destruct (String.ltb (fst n) (fst y)); [reflexivity|]. now rewrite IH.
Qed.

Lemma insort_app_ge (n x : string * Z) (xs ys : list (string * Z)) :
  Forall (fun y => String.ltb (fst n) (fst y) = false) xs ->
  String.ltb (fst n) (fst x) = false ->
  insort n (xs ++ x :: ys) = xs ++ x :: insort n ys.
Proof.
  intros Hxs Hx. induction Hxs as [|y xs Hy _ IH]; simpl.
  - now rewrite Hx.
  - now rewrite Hy, IH.
Qed.

Lemma insort_Permutation (n : string * Z) (xs : list (string * Z)) :
  Permutation (insort n xs) (n :: xs).
Proof.
  induction xs as [|x xs IH]; simpl; [reflexivity|].
  destruct (String.ltb (fst n) (fst x)); [reflexivity|].
  rewrite IH. apply perm_swap.
Qed.

Lemma sort_by_key_Permutation (ins : list (string * Z)) :
  Permutation (sort_by_key ins) ins.
Proof.
  unfold sort_by_key.
  assert (H : forall acc, Permutation
                (fold_left (fun acc n => insort n acc) ins acc) (ins ++ acc)).
  { induction ins as [|n ins IH]; intros acc; simpl; [reflexivity|].
    rewrite IH, insort_Permutation. symmetry. apply Permutation_middle. }
  rewrite H. now rewrite app_nil_r.
Qed.

Lemma insert_nodes (t : TreapNode) (location : string) (draw : Z) t' :
  Treap.insert t location draw = Ok t' -> bst t ->
  nodes t' = insort (location, draw) (nodes t).
Proof.
  revert t'. induction t as [|loc pr l IHl r IHr]; intros t' H Hb.
  - simpl in H. injection H as <-. reflexivity.
  - destruct Hb as (Hl & Hr & Hbl & Hbr).
    apply insert_node_inv in H.
    destruct H as [cloc cp cl cr Hlt Hc _ ->|cloc cp cl cr Hlt Hc _ ->
                  |cloc cp cl cr Hlt Hc _ ->|cloc cp cl cr Hlt Hc _ ->].
    + apply IHl in Hc; [|exact Hbl]. simpl in *.
      rewrite insort_app_lt by exact Hlt. rewrite <- Hc.
      now rewrite <- app_assoc.
    + apply IHl in Hc; [|exact Hbl]. simpl in *.
      rewrite insort_app_lt by exact Hlt. now rewrite <- Hc.
    + apply IHr in Hc; [|exact Hbr]. simpl in *.
      rewrite insort_app_ge; [| |exact Hlt].
      * rewrite <- Hc, <- app_assoc. reflexivity.
      * rewrite inorder_nodes in Hl. apply Forall_map in Hl.
        eapply Forall_impl; [|exact Hl]. intros x Hx. simpl.
        apply str_le_not_ltb. apply str_le_trans with loc; [exact Hx|].
        now apply ltb_false_le.
    + apply IHr in Hc; [|exact Hbr]. simpl in *.
      rewrite insort_app_ge; [| |exact Hlt].
      * now rewrite <- Hc.
      * rewrite inorder_nodes in Hl. apply Forall_map in Hl.
        eapply Forall_impl; [|exact Hl]. intros x Hx. simpl.
        apply str_le_not_ltb. apply str_le_trans with loc; [exact Hx|].
        now apply ltb_false_le.
Qed.

Lemma insertNodes_nodes (ins : list (string * Z)) (self self' : Treap.t) :
  insertNodes ins self = Ok self' -> bst (Treap.root self) ->
  nodes (Treap.root self') =
  fold_left (fun acc n => insort n acc) ins (nodes (Treap.root self)).
Proof.
  revert self. induction ins as [|[location draw] ins IH]; intros self; simpl.
  - now intros [= <-].
  - intros H Hb. apply bind_Ok_inv in H as (self1 & H1 & H).
    unfold Treap.insertNode in H1.
    apply bind_Ok_inv in H1 as (t1 & Ht1 & [= <-]).
    rewrite (IH _ H); simpl.
    + now rewrite (insert_nodes _ _ _ _ Ht1 Hb).
    + eapply insert_bst; eauto.
Qed.

Lemma insort_keys (n n' : string * Z) (xs xs' : list (string * Z)) :
  fst n = fst n' -> map fst xs = map fst xs' ->
  map fst (insort n xs) = map fst (insort n' xs').
Proof.
  intros Hn. revert xs'.
  induction xs as [|x xs IH]; intros [|x' xs']; simpl; try discriminate.
  - intros _. now rewrite Hn.
  - intros [= Hx Hxs]. rewrite <- Hn, <- Hx.
    destruct (String.ltb (fst n) (fst x)); simpl.
    + now rewrite Hn, Hx, Hxs.
    + now rewrite Hx, (IH xs' Hxs).
Qed.

Lemma sort_by_key_keys (ins ins' : list (string * Z)) :
  map fst ins = map fst ins' ->
  map fst (sort_by_key ins) = map fst (sort_by_key ins').
Proof.
  unfold sort_by_key.
  assert (H : forall acc acc', map fst acc = map fst acc' ->
            map fst ins = map fst ins' ->
            map fst (fold_left (fun acc n => insort n acc) ins acc) =
            map fst (fold_left (fun acc n => insort n acc) ins' acc')).
  { revert ins'. induction ins as [|n ins IH]; intros [|n' ins'] acc acc';
      simpl; try discriminate; [auto|].
    intros Hacc [= Hn Hins]. apply IH; [|exact Hins].
    now apply insort_keys. }
  now apply H.
Qed.

(** X3: the in-order sequence of the keys and priorities of a treap built
    by [insertNode] from the empty treap is the inserted entries sorted by
    key, entries with equal keys in the order of their insertion; the
    in-order sequence of the keys does not depend on the priorities
    drawn. *)
Theorem X3_inorder_is_stable_sort (ins : list (string * Z)) :
  exists self,
    insertNodes ins Treap.new = Ok self /\
    nodes (Treap.root self) = sort_by_key ins /\
    forall ins',
      map fst ins' = map fst ins ->
      exists self',
        insertNodes ins' Treap.new = Ok self' /\
        inorder (Treap.root self') = inorder (Treap.root self).
Proof.
  destruct (insertNodes_returns ins Treap.new) as (self & H).
  exists self. split; [exact H|].
  pose proof (insertNodes_nodes _ _ _ H I) as Hn.
  split; [exact Hn|].
  intros ins' Hkeys.
  destruct (insertNodes_returns ins' Treap.new) as (self' & H').
  exists self'. split; [exact H'|].
  pose proof (insertNodes_nodes _ _ _ H' I) as Hn'.
  rewrite !inorder_nodes, Hn, Hn'. now apply sort_by_key_keys.
Qed.

Lemma X3_inorder_is_stable_sort_witness :
  exists self self',
    insertNodes [("b", 5%Z); ("a", 9%Z); ("b", 7%Z)] Treap.new = Ok self /\
    nodes (Treap.root self) = [("a", 9%Z); ("b", 5%Z); ("b", 7%Z)] /\
    insertNodes [("b", 1%Z); ("a", 1%Z); ("b", 1%Z)] Treap.new = Ok self' /\
    inorder (Treap.root self') = inorder (Treap.root self).
Proof.
  destruct (X3_inorder_is_stable_sort [("b", 5%Z); ("a", 9%Z); ("b", 7%Z)])
    as (self & H & Hn & Hsame).
  destruct (Hsame [("b", 1%Z); ("a", 1%Z); ("b", 1%Z)] eq_refl)
    as (self' & H' & Hi).
  exists self, self'. auto.
Defined.

(** ** Priorities *)

Lemma prio_le_nodes (b : Z) (t : TreapNode) :
  prio_le b t -> Forall (fun n => (snd n <= b)%Z) (nodes t).
Proof.
  induction t as [|loc p l IHl r IHr]; simpl; [constructor|].
  intros (Hp & Hl & Hr). apply Forall_app. split; [auto|].
  constructor; auto.
Qed.

(** X4: a treap built by [insertNode] from the empty treap is empty only
    when nothing was inserted; otherwise its root is one of the inserted
    entries and carries the largest priority drawn. *)
Theorem X4_root_has_largest_priority (ins : list (string * Z))
  (self : Treap.t) :
  insertNodes ins Treap.new = Ok self ->
  match Treap.root self with
  | Null => ins = []
  | mkTreapNode loc p _ _ =>
      In (loc, p) ins /\ Forall (fun n => (snd n <= p)%Z) ins
  end.
Proof.
  intros H.
  pose proof (insertNodes_nodes _ _ _ H I) as Hn.
  pose proof (sort_by_key_Permutation ins) as Hperm.
  change (fold_left (fun acc n => insort n acc) ins (nodes (Treap.root Treap.new)))
    with (sort_by_key ins) in Hn.
  rewrite <- Hn in Hperm.
  assert (Hh : heap (Treap.root self)).
  { apply (insertNodes_invariant heap heap_insert _ _ _ H). exact I. }
  destruct (Treap.root self) as [|loc p l r] eqn:Hroot.
  - simpl in Hperm. apply Permutation_nil in Hperm. exact Hperm.
  - split.
    + apply (Permutation_in _ Hperm). simpl. apply in_app_iff. right. now left.
    + eapply Permutation_Forall; [exact Hperm|].
      apply prio_le_nodes. apply heap_prio_le; [exact Hh | simpl; lia].
Qed.

Lemma X4_root_has_largest_priority_witness :
  In ("New Jersey -> Miami", 50%Z)
     [("New York -> Boston", 5%Z); ("New Jersey -> Miami", 50%Z);
      ("Newark -> LA", 7%Z)] /\
  Forall (fun n => (snd n <= 50)%Z)
     [("New York -> Boston", 5%Z); ("New Jersey -> Miami", 50%Z);
      ("Newark -> LA", 7%Z)].
Proof.
  exact (X4_root_has_largest_priority
           [("New York -> Boston", 5%Z); ("New Jersey -> Miami", 50%Z);
            ("Newark -> LA", 7%Z)] _ eq_refl).
Defined.

(** ** What searchPrefix finds *)

Lemma leb_cons (a b : ascii) (s t : string) :
  String.leb (String a s) (String b t) =
  match Ascii.compare a b with
  | Eq => String.leb s t
  | Lt => true
  | Gt => false
  end.
Proof.
  unfold String.leb. simpl. now destruct (Ascii.compare a b).
Qed.

Lemma prefix_le (p k : string) : String.prefix p k = true -> str_le p k.
Proof.
  unfold str_le. revert k. induction p as [|a p IH]; intros [|b k]; simpl;
    try reflexivity; try discriminate.
  destruct (ascii_dec a b) as [->|]; [|discriminate].
  intros H. rewrite leb_cons, ascii_compare_refl. auto.
Qed.

(** A string between a prefix and a string that starts with it starts with
    it too. *)
Lemma prefix_between (p m k : string) :
  str_le p m -> str_le m k ->
  String.prefix p k = true -> String.prefix p m = true.
Proof.
  unfold str_le. revert m k.
  induction p as [|a p IH]; intros m k Hpm Hmk Hpk.
  - now destruct m.
  - destruct k as [|b k]; [discriminate|]. simpl in Hpk.
    destruct (ascii_dec a b) as [<-|]; [|discriminate].
    destruct m as [|c m]; [discriminate|].
    rewrite leb_cons in Hpm, Hmk.
    rewrite (Ascii.compare_antisym c a) in Hmk.
    destruct (Ascii.compare a c) eqn:Hac; simpl in Hmk; try discriminate.
    apply Ascii.compare_eq_iff in Hac. subst c. simpl.
    destruct (ascii_dec a a); [|congruence]. eauto.
Qed.

Lemma search_exact (t : TreapNode) (key : string) :
  bst t -> In key (inorder t) -> In key (Treap.search t key).
Proof.
  induction t as [|loc p l IHl r IHr]; simpl; [tauto|].
  intros (Hl & Hr & Hbl & Hbr) Hin. apply in_app_iff.
  destruct (string_dec loc key) as [->|Hne].
  - left. unfold startswith.
    replace (String.prefix key key) with true; [now left|].
    symmetry. rewrite <- (append_nil_r key) at 2. apply prefix_app.
  - right. apply in_app_iff in Hin as [Hin|[Heq|Hin]]; [|contradiction|].
    + rewrite Forall_forall in Hl. apply Hl in Hin as Hle.
      apply str_le_cases in Hle as [Heq|Hlt]; [congruence|].
      unfold String.ltb. rewrite Hlt. auto.
    + rewrite Forall_forall in Hr. apply Hr in Hin as Hle.
      rewrite (str_le_not_ltb _ _ Hle). auto.
Qed.

Lemma search_finds_one (t : TreapNode) (prefix key : string) :
  bst t -> In key (inorder t) -> startswith key prefix = true ->
  Treap.search t prefix <> [].
Proof.
  induction t as [|loc p l IHl r IHr]; simpl; [tauto|].
  intros (Hl & Hr & Hbl & Hbr) Hin Hkey.
  destruct (startswith loc prefix) eqn:Hloc; [discriminate|]. simpl.
  pose proof (prefix_le _ _ Hkey) as Hpk.
  rewrite Forall_forall in Hl, Hr.
  apply in_app_iff in Hin as [Hin|[Heq|Hin]].
  - destruct (String.ltb prefix loc) eqn:Hlt; [auto|]. exfalso.
    apply ltb_false_le in Hlt. apply Hl in Hin.
    assert (H : String.prefix prefix loc = true).
    { apply prefix_between with key; [| |exact Hkey].
      - apply str_le_trans with key; auto.
      - apply str_le_trans with prefix; auto. }
    unfold startswith in Hloc. congruence.
  - subst loc. congruence.
  - destruct (String.ltb prefix loc) eqn:Hlt; [|auto]. exfalso.
    apply ltb_true_le in Hlt. apply Hr in Hin.
    assert (H : String.prefix prefix loc = true)
      by (apply prefix_between with key; auto).
    unfold startswith in Hloc. congruence.
Qed.

(** X5: on a treap built by [insertNode] from the empty treap,
    [searchPrefix] returns only inserted keys that start with the prefix;
    it returns the empty list exactly when no inserted key starts with the
    prefix; and a search for a whole inserted key finds that key. *)
Theorem X5_searchPrefix_finds (ins : list (string * Z)) (prefix : string) :
  exists self,
    insertNodes ins Treap.new = Ok self /\
    (forall r, In r (Treap.searchPrefix prefix self) ->
               In r (map fst ins) /\ startswith r prefix = true) /\
    (Treap.searchPrefix prefix self = [] <->
     forall key, In key (map fst ins) -> startswith key prefix = false) /\
    (In prefix (map fst ins) -> In prefix (Treap.searchPrefix prefix self)).
Proof.
  destruct (insertNodes_returns ins Treap.new) as (self & H).
  exists self. split; [exact H|].
  assert (Hb : bst (Treap.root self)).
  { apply (insertNodes_invariant bst insert_bst _ _ _ H). exact I. }
  assert (Hperm : Permutation (inorder (Treap.root self)) (map fst ins)).
  { apply insertNodes_inorder in H. simpl in H. rewrite app_nil_r in H.
    rewrite H. symmetry. apply Permutation_rev. }
  unfold Treap.searchPrefix. split; [|split].
  - intros r Hr. apply treap_search_In in Hr as (Hin & Hs).
    split; [now apply (Permutation_in _ Hperm) | exact Hs].
  - split.
    + intros Hnil key Hkey.
      destruct (startswith key prefix) eqn:Hs; [|reflexivity]. exfalso.
      apply (Permutation_in _ (Permutation_sym Hperm)) in Hkey.
      exact (search_finds_one _ _ _ Hb Hkey Hs Hnil).
    + intros Hno. apply no_element_nil. intros r Hr.
      apply treap_search_In in Hr as (Hin & Hs).
      apply (Permutation_in _ Hperm) in Hin. apply Hno in Hin. congruence.
  - intros Hin. apply search_exact; [exact Hb|].
    now apply (Permutation_in _ (Permutation_sym Hperm)).
Qed.

Lemma X5_searchPrefix_finds_witness :
  exists self,
    insertNodes [("New York -> Boston", 5%Z); ("New Jersey -> Miami", 50%Z);
                 ("Newark -> LA", 7%Z)] Treap.new = Ok self /\
    In "Newark -> LA" (Treap.searchPrefix "Newark -> LA" self).
Proof.
  destruct (X5_searchPrefix_finds
              [("New York -> Boston", 5%Z); ("New Jersey -> Miami", 50%Z);
               ("Newark -> LA", 7%Z)] "Newark -> LA")
    as (self & H & _ & _ & Hexact).
  exists self. split; [exact H|].
  apply Hexact. simpl. auto.
Defined.

(** A search can leave out keys that start with the prefix: with these
    priorities "New York -> Boston" is the right child of
    "New Jersey -> Miami", and the search for "New" goes to the left at
    "Newark -> LA" and again at "New Jersey -> Miami". *)
Example searchPrefix_leaves_out :
  exists self,
    insertNodes [("New York -> Boston", 5%Z); ("New Jersey -> Miami", 50%Z);
                 ("Newark -> LA", 70%Z)] Treap.new = Ok self /\
    Treap.searchPrefix "New" self = ["Newark -> LA"; "New Jersey -> Miami"].
Proof. eexists. split; reflexivity. Qed.

(** ** What Trie.search returns *)

Lemma filter_all {A : Type} (f : A -> bool) (l : list A) :
  (forall x, In x l -> f x = true) -> filter f l = l.
Proof.
  induction l as [|x l IH]; simpl; [reflexivity|]. intros H.
  rewrite (H x) by (now left). f_equal. apply IH. intros y Hy. apply H. now right.
Qed.









(** X6: after one more word is inserted into a trie built by insertions,
    [search] returns what it returned before and, when the new word starts
    with the prefix, case ignored, the new word in lower case; nothing
    else. *)
Theorem X6_search_after_insert (words : list string) (word p r : string) :
  In r (Trie.search p (Trie.insert word (insertWords words Trie.new))) <->
  In r (Trie.search p (insertWords words Trie.new)) \/
  (r = lower word /\ startswith (lower word) (lower p) = true).
Proof.
  replace (Trie.insert word (insertWords words Trie.new))
    with (insertWords (words ++ [word]) Trie.new)
    by (now rewrite insertWords_app).
  rewrite !search_insertWords. unfold startswith. split.
  - intros (Hp & W & HW & ->). apply in_app_iff in HW as [HW|[<-|[]]]; eauto.
  - intros [(Hp & W & HW & ->)|(-> & Hp)].
    + split; [exact Hp|]. exists W. split; [|reflexivity].
      apply in_app_iff. now left.
    + split; [exact Hp|]. exists word. split; [|reflexivity].
      apply in_app_iff. right. now left.
Qed.

Lemma search_Permutation (words : list string) (p : string) :
  Permutation
    (Trie.search p (insertWords words Trie.new))
    (nodup string_dec
       (filter (fun w => startswith w (lower p)) (map lower words))).
Proof.
  apply NoDup_Permutation.
  - apply search_NoDup, insertWords_unique, unique_keys_new.
  - apply NoDup_nodup.
  - intros r. rewrite search_insertWords, nodup_In, filter_In, in_map_iff.
    unfold startswith. split.
    + intros (Hp & W & HW & ->). eauto.
    + intros ((W & <- & HW) & Hp). eauto.
Qed.

Lemma search_all_Permutation (words : list string) :
  Permutation
    (Trie.search "" (insertWords words Trie.new))
    (nodup string_dec (map lower words)).
Proof.
  rewrite (search_Permutation words ""). simpl.
  rewrite filter_all; [reflexivity|]. intros w _. now destruct w.
Qed.

(** X7: on a trie built by insertions, [search] returns, in some order and
    each once, the inserted words in lower case that start with the
    lower-cased prefix; for the empty prefix these are all inserted words
    in lower case. *)
Theorem X7_search_result (words : list string) (p : string) :
  Permutation
    (Trie.search p (insertWords words Trie.new))
    (nodup string_dec
       (filter (fun w => startswith w (lower p)) (map lower words))) /\
  Permutation
    (Trie.search "" (insertWords words Trie.new))
    (nodup string_dec (map lower words)).
Proof.
  split; [apply search_Permutation | apply search_all_Permutation].
Qed.

(** X8: the order in which words are inserted changes at most the order of
    what [search] returns. *)
Theorem X8_insertion_order (words words' : list string) (p : string) :
  Permutation words words' ->
  Permutation (Trie.search p (insertWords words Trie.new))
              (Trie.search p (insertWords words' Trie.new)).
Proof.
  intros Hperm. apply NoDup_Permutation.
  - apply search_NoDup, insertWords_unique, unique_keys_new.
  - apply search_NoDup, insertWords_unique, unique_keys_new.
  - intros r. rewrite !search_insertWords. split.
    + intros (Hp & W & HW & ->). split; [exact Hp|]. exists W.
      split; [|reflexivity]. now apply (Permutation_in _ Hperm).
    + intros (Hp & W & HW & ->). split; [exact Hp|]. exists W.
      split; [|reflexivity].
      now apply (Permutation_in _ (Permutation_sym Hperm)).
Qed.

Lemma X8_insertion_order_witness :
  Permutation ["Newark -> LA"; "New York -> Boston"]
              ["New York -> Boston"; "Newark -> LA"] /\
  Permutation
    (Trie.search "new"
       (insertWords ["Newark -> LA"; "New York -> Boston"] Trie.new))
    (Trie.search "new"
       (insertWords ["New York -> Boston"; "Newark -> LA"] Trie.new)).
Proof.
  assert (H : Permutation ["Newark -> LA"; "New York -> Boston"]
                          ["New York -> Boston"; "Newark -> LA"])
    by apply perm_swap.
  split; [exact H|].
  exact (X8_insertion_order _ _ "new" H).
Defined.

(** X9: neither [insert] nor [search] sees the case of its argument: two
    strings that are equal in lower case give, as prefixes, the same
    result and, as words, the same trie; and inserting a word that is
    equal in lower case to a word inserted before leaves the trie as it
    is. *)
Theorem X9_case_is_ignored (words : list string) (a b : string) :
  lower a = lower b ->
  let self := insertWords words Trie.new in
  Trie.search a self = Trie.search b self /\
  Trie.insert a self = Trie.insert b self /\
  (In b words -> Trie.insert a self = self).
Proof.
  intros Hab self. unfold Trie.insert, Trie.search. rewrite Hab.
  split; [reflexivity|]. split; [reflexivity|].
  intros Hin. rewrite insert_loop_spelt; [now destruct self|].
  apply spells_insertWords. left. eauto.
Qed.

Lemma X9_case_is_ignored_witness :
  lower "NEWARK -> la" = lower "Newark -> LA" /\
  Trie.insert "NEWARK -> la" (insertWords ["Newark -> LA"] Trie.new) =
  insertWords ["Newark -> LA"] Trie.new.
Proof.
  split; [reflexivity|].
  destruct (X9_case_is_ignored ["Newark -> LA"]
              "NEWARK -> la" "Newark -> LA" eq_refl) as (_ & _ & H).
  apply H. left. reflexivity.
Defined.

(** X10: when the prefix is, case ignored, an inserted word, that word in
    lower case is the first string that [search] returns. *)
Theorem X10_exact_match_first (words : list string) (W p : string) :
  In W words -> lower p = lower W ->
  exists rest,
    Trie.search p (insertWords words Trie.new) = lower W :: rest.
Proof.
  intros HW Hp.
  assert (Hs : spells (Trie.root (insertWords words Trie.new)) (lower W) = true)
    by (apply spells_insertWords; left; eauto).
  unfold Trie.search. rewrite Hp. unfold spells in Hs.
  destruct (Trie.search_loop (lower W) (Trie.root (insertWords words Trie.new)))
    as [[ch e]|]; [|discriminate].
  simpl in Hs. subst e. simpl. eauto.
Qed.

Lemma X10_exact_match_first_witness :
  In "New" ["New York -> Boston"; "New"; "Newark -> LA"] /\
  lower "NEW" = lower "New" /\
  exists rest,
    Trie.search "NEW"
      (insertWords ["New York -> Boston"; "New"; "Newark -> LA"] Trie.new) =
    lower "New" :: rest.
Proof.
  assert (H : In "New" ["New York -> Boston"; "New"; "Newark -> LA"])
    by (right; left; reflexivity).
  split; [exact H|]. split; [reflexivity|].
  exact (X10_exact_match_first _ "New" "NEW" H eq_refl).
Defined.


(** ** LocationGraph, continued *)

(** X12: [addLocations] raises IndexError when [newLocations] has fewer
    than two elements; otherwise it returns, and it reads only the first
    two elements: the result is that for the list of these two. *)
Theorem X12_addLocations_bounds (newLocations : list string) (draw : Z)
  (self : LocationGraph.t) :
  ((List.length newLocations < 2)%nat ->
   LocationGraph.addLocations newLocations draw self = Raise IndexError) /\
  ((2 <= List.length newLocations)%nat ->
   exists departure arrival rest g,
     newLocations = departure :: arrival :: rest /\
     LocationGraph.addLocations newLocations draw self = Ok (PyNone, g) /\
     LocationGraph.addLocations [departure; arrival] draw self =
       Ok (PyNone, g)).
Proof.
  split.
  - destruct newLocations as [|l0 [|l1 rest]]; simpl; try lia; reflexivity.
  - destruct newLocations as [|l0 [|l1 rest]]; simpl; try lia. intros _.
    destruct (addLocations_spec l0 l1 draw self) as (t' & Ht & Ha).
    exists l0, l1, rest. eexists. split; [reflexivity|].
    split; [|exact Ha].
    unfold LocationGraph.addLocations in *. simpl in *. exact Ha.
Qed.

Lemma X12_addLocations_bounds_witness :
  (List.length ["Newark"] < 2)%nat /\
  LocationGraph.addLocations ["Newark"] 3%Z LocationGraph.new =
    Raise IndexError /\
  (2 <= List.length ["Newark"; "LA"; "Boston"])%nat /\
  exists g,
    LocationGraph.addLocations ["Newark"; "LA"; "Boston"] 3%Z
      LocationGraph.new = Ok (PyNone, g) /\
    LocationGraph.locations g = ["Newark -> LA"].
Proof.
  destruct (X12_addLocations_bounds ["Newark"] 3%Z LocationGraph.new)
    as (Hshort & _).
  destruct (X12_addLocations_bounds ["Newark"; "LA"; "Boston"] 3%Z
              LocationGraph.new) as (_ & Hlong).
  assert (H1 : (List.length ["Newark"] < 2)%nat) by (simpl; lia).
  assert (H3 : (2 <= List.length ["Newark"; "LA"; "Boston"])%nat)
    by (simpl; lia).
  split; [exact H1|]. split; [exact (Hshort H1)|]. split; [exact H3|].
  destruct (Hlong H3) as (dep & arr & rest & g & _ & Hg & _).
  exists g. split; [exact Hg|].
  vm_compute in Hg. injection Hg as <-. reflexivity.
Defined.



(** X14: in the graph that adding any routes to a fresh one gives, the
    list of locations holds the keys of the routes in the order in which
    they were added, the in-order sequence of the treap is that list
    sorted, equal keys in the order of the list, and [autocomplete] with
    the empty prefix returns, in some order and each once, the locations
    in lower case. *)
Theorem X14_structures_agree (routes : list (string * string * Z)) :
  exists g,
    addRoutes routes LocationGraph.new = Ok g /\
    LocationGraph.locations g = map route_key routes /\
    nodes (Treap.root (LocationGraph.treap g)) =
      sort_by_key (map route_ins routes) /\
    Permutation (inorder (Treap.root (LocationGraph.treap g)))
                (LocationGraph.locations g) /\
    Sorted str_le (inorder (Treap.root (LocationGraph.treap g))) /\
    Permutation (LocationGraph.autocomplete "" g)
                (nodup string_dec (map lower (LocationGraph.locations g))).
Proof.
  destruct (addRoutes_spec routes LocationGraph.new) as (t & Ht & Hg).
  eexists. split; [exact Hg|]. simpl.
  assert (Hb : bst (Treap.root t)).
  { apply (insertNodes_invariant bst insert_bst _ _ _ Ht). exact I. }
  split; [reflexivity|]. split; [|split; [|split]].
  - exact (insertNodes_nodes _ _ _ Ht I).
  - apply insertNodes_inorder in Ht. simpl in Ht.
    rewrite app_nil_r, map_map in Ht. simpl in Ht.
    rewrite Ht. symmetry. apply Permutation_rev.
  - now apply bst_iff_Sorted.
  - unfold LocationGraph.autocomplete. simpl.
    apply search_all_Permutation.
Qed.

(** ** strip and submitLocations *)








(** ** getWeather *)

Lemma prefix_cons (a b : ascii) (s t : string) :
  String.prefix (String a s) (String b t) =
  if ascii_dec a b then String.prefix s t else false.
Proof. reflexivity. Qed.

Lemma prefix_arrow_inv (s : string) :
  String.prefix arrow s = true ->
  exists x y t, s = String x (String y (String ">" t)).
Proof.
  unfold arrow. intros H.
  destruct s as [|x s]; [discriminate H|].
  rewrite prefix_cons in H. destruct (ascii_dec " " x); [|discriminate H].
  destruct s as [|y s]; [discriminate H|].
  rewrite prefix_cons in H. destruct (ascii_dec "-" y); [|discriminate H].
  destruct s as [|z s]; [discriminate H|].
  rewrite prefix_cons in H.
  destruct (ascii_dec ">" z) as [<-|]; [eauto | discriminate H].
Qed.

Lemma no_arrow_inside (c : ascii) (a rest : string) :
  contains_char ">" (String c a) = false ->
  String.prefix arrow (String c (a ++ arrow ++ rest)) = false.
Proof.
  intros Hno.
  destruct (String.prefix arrow (String c (a ++ arrow ++ rest))) eqn:Hp;
    [|reflexivity].
  apply prefix_arrow_inv in Hp as (x & y & t & Heq).
  injection Heq as _ Heq. exfalso.
  simpl in Hno. apply orb_false_iff in Hno as (_ & Hno).
  destruct a as [|a1 [|a2 a]]; simpl in Heq, Hno.
  - discriminate.
  - discriminate.
  - injection Heq as _ -> _.
    rewrite Ascii.eqb_refl in Hno.
    apply orb_false_iff in Hno as (_ & Hno). discriminate.
Qed.

Lemma no_arrow_plain (s : string) :
  contains_char ">" s = false -> String.prefix arrow s = false.
Proof.
  intros Hno. destruct (String.prefix arrow s) eqn:Hp; [|reflexivity].
  apply prefix_arrow_inv in Hp as (x & y & t & ->). simpl in Hno.
  rewrite !orb_true_r in Hno. discriminate.
Qed.

Lemma split_loop_first (a rest cur : string) :
  contains_char ">" a = false ->
  split_loop arrow (a ++ arrow ++ rest) 0 cur =
  (cur ++ a)%string :: split_loop arrow rest 0 "".
Proof.
  revert cur. induction a as [|c a IH]; intros cur Hno.
  - rewrite append_nil_r.
    change ("" ++ arrow ++ rest)%string
      with (String " " (String "-" (String ">" (String " " rest)))).
    cbn [split_loop].
    replace (String.prefix arrow
               (String " " (String "-" (String ">" (String " " rest)))))
      with true by (symmetry; apply (prefix_app arrow rest)).
    reflexivity.
  - cbn [append split_loop]. rewrite (no_arrow_inside c a rest Hno).
    rewrite IH.
    + now rewrite append_assoc.
    + simpl in Hno. now apply orb_false_iff in Hno.
Qed.

Lemma split_loop_last (s cur : string) :
  contains_char ">" s = false ->
  split_loop arrow s 0 cur = [(cur ++ s)%string].
Proof.
  revert cur. induction s as [|c s IH]; intros cur Hno.
  - simpl. now rewrite append_nil_r.
  - cbn [split_loop]. rewrite (no_arrow_plain _ Hno). rewrite IH.
    + now rewrite append_assoc.
    + simpl in Hno. now apply orb_false_iff in Hno.
Qed.

Lemma split_loop_nonempty (sep s : string) (skip : nat) (cur : string) :
  exists x xs, split_loop sep s skip cur = x :: xs.
Proof.
  revert skip cur. induction s as [|c s IH]; intros skip cur.
  - simpl. eauto.
  - cbn [split_loop]. destruct skip; [|apply IH].
    destruct (String.prefix sep (String c s)); [eauto | apply IH].
Qed.

Lemma split_arrow_combined (a d : string) :
  contains_char ">" a = false -> contains_char ">" d = false ->
  split_arrow (LocationGraph.combined a d) = [a; d].
Proof.
  intros Ha Hd.
  change (split_loop arrow (a ++ arrow ++ d) 0 "" = [a; d]).
  rewrite (split_loop_first a d "" Ha). simpl append.
  now rewrite (split_loop_last d "" Hd).
Qed.

(** X16: for a key "{a} -> {d}" in which neither [a] nor [d] holds the
    character ">" and [d] is not empty, [split(" -> ")] gives back [a] and
    [d], and [getWeather] asks for the weather of [a] and then of [d]. *)
Theorem X16_getWeather_of_key (a d : string) :
  contains_char ">" a = false -> contains_char ">" d = false -> d <> "" ->
  split_arrow (a ++ " -> " ++ d) = [a; d] /\
  getWeather (a ++ " -> " ++ d) = Ok [a; d].
Proof.
  intros Ha Hd Hne.
  pose proof (split_arrow_combined a d Ha Hd) as Hs.
  unfold LocationGraph.combined in Hs. split; [exact Hs|].
  unfold getWeather. rewrite Hs.
  replace (a ++ " -> " ++ d =? "")%string with false.
  - simpl. apply String.eqb_neq in Hne. now rewrite Hne.
  - symmetry. apply String.eqb_neq. destruct a; discriminate.
Qed.

Lemma X16_getWeather_of_key_witness :
  contains_char ">" "New York" = false /\
  contains_char ">" "Boston" = false /\
  "Boston" <> "" /\
  split_arrow ("New York" ++ " -> " ++ "Boston") = ["New York"; "Boston"] /\
  getWeather ("New York" ++ " -> " ++ "Boston") = Ok ["New York"; "Boston"].
Proof.
  assert (Hne : "Boston" <> "") by discriminate.
  split; [reflexivity|]. split; [reflexivity|]. split; [exact Hne|].
  exact (X16_getWeather_of_key "New York" "Boston" eq_refl eq_refl Hne).
Defined.

(** The character ">" in the departure can break the round trip of X16:
    the first piece is then not the departure. *)
Example getWeather_arrow_in_departure :
  getWeather (LocationGraph.combined "x ->" "d") = Ok ["x"; "-> d"].
Proof. reflexivity. Qed.

(** X17: [getWeather] never raises: [locations[0]] exists for every
    selection.  It asks for nothing exactly when the selection is empty,
    and it never asks for more than two names. *)
Theorem X17_getWeather_returns (selectedLocation : string) :
  exists names,
    getWeather selectedLocation = Ok names /\
    (names = [] <-> selectedLocation = "") /\
    (List.length names <= 2)%nat.
Proof.
  unfold getWeather.
  destruct (String.eqb_spec selectedLocation "") as [->|Hne]; simpl.
  - exists []. repeat split; auto.
  - unfold split_arrow.
    destruct (split_loop_nonempty arrow selectedLocation 0 "")
      as (x & xs & ->). simpl.
    assert (Hcons : forall tl : list string,
              (x :: tl = [] <-> selectedLocation = ""))
      by (intros tl; split; [discriminate | contradiction]).
    destruct xs as [|y xs]; simpl.
    + exists [x]. split; [reflexivity|]. split; [apply Hcons | simpl; lia].
    + eexists. split; [reflexivity|]. split; [apply Hcons|].
      destruct (negb (y =? "")%string); simpl; lia.
Qed.
